(** * aggr-server-side: the cluster socket service (src/services/socket.js)

    A shallow embedding of [SocketService]: the frame codec
    [parseSocketData], the hub side ([createCluster], [getNodeByMarket]) and
    the collector side ([connectToCluster], [reconnectCluster], [close]).

    JavaScript runs the service on one thread, one event-handler at a time.
    Every method and every handler is therefore a sequential program over the
    objects it can reach; it is embedded as a computation in a small monad
    with state (the heap), an append-only trace of what the handler did to the
    outside (console lines, callback calls, emitted events, socket writes) and
    exceptions ([throw] / [try_catch]). *)

From Stdlib Require Import ZArith Ascii String List Lia DecimalString.
From stdpp Require Import base gmap strings list.

Set Warnings "-register-all,-clear-no-such-hyp".

(** ** Values *)

(** What [JSON.parse] can return, plus [undefined], which property access
    produces.  Numbers are kept to the integers. *)
Inductive jsval : Type :=
| JUndefined
| JNull
| JBool (b : bool)
| JNum (n : Z)
| JStr (s : string)
| JArr (items : list jsval)
| JObj (fields : list (string * jsval)).

(** Values that can be thrown. *)
Inductive error : Type :=
| SyntaxError (message : string)
| TypeError (message : string)
| Thrown (message : string).

Definition message (e : error) : string :=
  match e with SyntaxError m | TypeError m | Thrown m => m end.

(** The result of running a statement: it completes or it throws. *)
Inductive completion (A : Type) : Type :=
| Normal (a : A)
| Throw (e : error).
Arguments Normal {A} a.
Arguments Throw {A} e.

(** JavaScript's ToBoolean, as used by [if (json)]. *)
Definition truthy (v : jsval) : bool :=
  match v with
  | JUndefined | JNull => false
  | JBool b => b
  | JNum n => negb (n =? 0)%Z
  | JStr s => negb (String.eqb s "")
  | JArr _ | JObj _ => true
  end.

(** Own property of an object built by [JSON.parse]; a repeated key keeps its
    last value. *)
Fixpoint own_prop (fields : list (string * jsval)) (k : string) : jsval :=
  match fields with
  | [] => JUndefined
  | (k', v) :: rest =>
      match own_prop rest k with
      | JUndefined => if String.eqb k' k then v else JUndefined
      | found => found
      end
  end.

(** [v.k] for the property names this file reads ([op], [data], [markets],
    [indexes]): none of them exists on a primitive's or an array's prototype,
    and reading a property of [null] or [undefined] throws. *)
Definition get_prop (v : jsval) (k : string) : completion jsval :=
  match v with
  | JUndefined | JNull =>
      Throw (TypeError ("Cannot read properties of null or undefined: " +:+ k))
  | JObj fields => Normal (own_prop fields k)
  | _ => Normal JUndefined
  end.

(** [a === b] where [b] is a string. *)
Definition strict_eq_str (a : jsval) (b : string) : bool :=
  match a with JStr s => String.eqb s b | _ => false end.

(** ** Strings *)

(** [s[i]]: [undefined] (here [None]) outside the string. *)
Definition char_at (s : string) (i : Z) : option ascii :=
  if (i <? 0)%Z then None else String.get (Z.to_nat i) s.

(** [s.indexOf(x) !== -1] *)
Definition has_indexOf (s x : string) : bool :=
  match String.index 0 x s with Some _ => true | None => false end.

(** [s.split(sep)] for a one-character separator. *)
Fixpoint split (sep : ascii) (s : string) : list string :=
  match s with
  | EmptyString => [EmptyString]
  | String c s' =>
      if Ascii.eqb c sep then EmptyString :: split sep s'
      else match split sep s' with
           | seg :: segs => String c seg :: segs
           | [] => [String c EmptyString]
           end
  end.

(** ** Heap and trace *)

Definition SocketId := nat.
Definition TimerId := nat.

(** The properties of a [net.Socket] object this file reads or writes. *)
Record Socket : Type := mkSocket {
  markets : jsval;
  indexes : jsval;
  destroyed : bool;
  ended : bool;
}.

(** A socket object nobody has touched yet. *)
Definition new_socket : Socket :=
  {| markets := JUndefined; indexes := JUndefined;
     destroyed := false; ended := false |}.

(** The fields of the [SocketService] singleton, [this]. *)
Record Service : Type := mkService {
  clusterSocket : option SocketId;
  serverSocket : bool;
  clusteredCollectors : list SocketId;
  pendingSocketData : string;
  _clusterConnectionTimeout : option TimerId;
}.

Inductive logarg : Type :=
| Text (s : string)
| Value (v : jsval)
| Err (e : error)
| Joined (items : list jsval) (sep : string)
| Seconds (ms : Z).

(** What a handler does to the outside, in program order. *)
Inductive event : Type :=
| Console (level : string) (args : list logarg)
| Callback (json : jsval)
| Emit (op data : jsval)
| SocketWrite (socket : SocketId) (text : string).

(** The configuration module ([../config]) and the index list of
    [./connections], as far as this file reads them. *)
Record Config : Type := mkConfig {
  influxCollectors : bool;
  api : bool;
  collect : bool;
  influxCollectorsClusterSocketPath : string;
  influxCollectorsReconnectionDelay : Z;
  pairs : list string;
  index_ids : list string;
}.

Definition Buffer := list Byte.byte.

(** What the module is linked against: [JSON] and [Buffer] of the runtime,
    the subscribers of the service's events (they have a state of their own,
    [Ext], and a call to them returns or throws) and the configuration. *)
Class Environment : Type := {
  JSON_parse : string -> completion jsval;
  JSON_stringify : jsval -> string;
  toString : Buffer -> string;
  Ext : Type;
  listeners : jsval -> jsval -> Ext -> Ext * completion unit;
  config : Config;
}.

Declare Scope M_scope.
Delimit Scope M_scope with M.

Section SocketService.

Context `{Environment}.

Record Heap : Type := mkHeap {
  this : Service;
  sockets : gmap SocketId Socket;
  timers : gset TimerId;
  next_socket : SocketId;
  next_timer : TimerId;
  ext : Ext;
}.

(** The socket object behind a reference. *)
Definition socket_of (h : Heap) (s : SocketId) : Socket :=
  default new_socket (sockets h !! s).

(** ** The monad *)

Definition M (A : Type) : Type := Heap -> list event * Heap * completion A.

Definition ret {A} (a : A) : M A := fun h => ([], h, Normal a).

Definition bind {A B} (m : M A) (k : A -> M B) : M B :=
  fun h =>
    match m h with
    | (t1, h1, Normal a) =>
        match k a h1 with (t2, h2, c) => (t1 ++ t2, h2, c) end
    | (t1, h1, Throw e) => (t1, h1, Throw e)
    end.

Definition throw {A} (e : error) : M A := fun h => ([], h, Throw e).

(** [try { body } catch (error) { handler }] *)
Definition try_catch {A} (body : M A) (handler : error -> M A) : M A :=
  fun h =>
    match body h with
    | (t1, h1, Normal a) => (t1, h1, Normal a)
    | (t1, h1, Throw e) =>
        match handler e h1 with (t2, h2, c) => (t1 ++ t2, h2, c) end
    end.

(** The three components of a run. *)
Definition trace {A} (r : list event * Heap * completion A) : list event :=
  r.1.1.
Definition heap {A} (r : list event * Heap * completion A) : Heap := r.1.2.
Definition outcome {A} (r : list event * Heap * completion A) : completion A :=
  r.2.

Definition tell (evs : list event) : M unit := fun h => (evs, h, Normal tt).
Definition gets {A} (f : Heap -> A) : M A := fun h => ([], h, Normal (f h)).
Definition modify (f : Heap -> Heap) : M unit := fun h => ([], f h, Normal tt).
Definition lift {A} (c : completion A) : M A := fun h => ([], h, c).

Bind Scope M_scope with M.
Notation "x <- m ;; k" := (bind m (fun x => k))
  (at level 100, m at next level, k at level 200, right associativity)
  : M_scope.
Notation "m ;; k" := (bind m (fun _ => k))
  (at level 100, k at level 200, right associativity) : M_scope.
Local Open Scope M_scope.

(** [for (let i = i0; i < ...; i++) body(i, l[i])], over the elements left. *)
Fixpoint for_each {A} (body : nat -> A -> M unit) (i : nat) (l : list A)
  : M unit :=
  match l with
  | [] => ret tt
  | x :: l' => body i x ;; for_each body (S i) l'
  end.

(** *** Field updates *)

Definition with_this (f : Service -> Service) (h : Heap) : Heap :=
  {| this := f (this h); sockets := sockets h; timers := timers h;
     next_socket := next_socket h; next_timer := next_timer h; ext := ext h |}.

Definition with_sockets (f : gmap SocketId Socket -> gmap SocketId Socket)
    (h : Heap) : Heap :=
  {| this := this h; sockets := f (sockets h); timers := timers h;
     next_socket := next_socket h; next_timer := next_timer h; ext := ext h |}.

Definition with_timers (f : gset TimerId -> gset TimerId) (h : Heap) : Heap :=
  {| this := this h; sockets := sockets h; timers := f (timers h);
     next_socket := next_socket h; next_timer := next_timer h; ext := ext h |}.

Definition with_ext (x : Ext) (h : Heap) : Heap :=
  {| this := this h; sockets := sockets h; timers := timers h;
     next_socket := next_socket h; next_timer := next_timer h; ext := x |}.

Definition set_clusterSocket (v : option SocketId) (t : Service) : Service :=
  {| clusterSocket := v; serverSocket := serverSocket t;
     clusteredCollectors := clusteredCollectors t;
     pendingSocketData := pendingSocketData t;
     _clusterConnectionTimeout := _clusterConnectionTimeout t |}.

Definition set_serverSocket (v : bool) (t : Service) : Service :=
  {| clusterSocket := clusterSocket t; serverSocket := v;
     clusteredCollectors := clusteredCollectors t;
     pendingSocketData := pendingSocketData t;
     _clusterConnectionTimeout := _clusterConnectionTimeout t |}.

Definition set_clusteredCollectors (v : list SocketId) (t : Service) : Service :=
  {| clusterSocket := clusterSocket t; serverSocket := serverSocket t;
     clusteredCollectors := v;
     pendingSocketData := pendingSocketData t;
     _clusterConnectionTimeout := _clusterConnectionTimeout t |}.

Definition set_pendingSocketData (v : string) (t : Service) : Service :=
  {| clusterSocket := clusterSocket t; serverSocket := serverSocket t;
     clusteredCollectors := clusteredCollectors t;
     pendingSocketData := v;
     _clusterConnectionTimeout := _clusterConnectionTimeout t |}.

Definition set_clusterConnectionTimeout (v : option TimerId) (t : Service)
  : Service :=
  {| clusterSocket := clusterSocket t; serverSocket := serverSocket t;
     clusteredCollectors := clusteredCollectors t;
     pendingSocketData := pendingSocketData t;
     _clusterConnectionTimeout := v |}.

Definition set_markets (v : jsval) (s : Socket) : Socket :=
  {| markets := v; indexes := indexes s;
     destroyed := destroyed s; ended := ended s |}.
Definition set_indexes (v : jsval) (s : Socket) : Socket :=
  {| markets := markets s; indexes := v;
     destroyed := destroyed s; ended := ended s |}.
Definition set_destroyed (s : Socket) : Socket :=
  {| markets := markets s; indexes := indexes s;
     destroyed := true; ended := ended s |}.
Definition set_ended (s : Socket) : Socket :=
  {| markets := markets s; indexes := indexes s;
     destroyed := destroyed s; ended := true |}.

(** Assignment to a property of the socket object [s]. *)
Definition updated (s : SocketId) (f : Socket -> Socket) (h : Heap) : Heap :=
  with_sockets (fun m => <[s := f (socket_of h s)]> m) h.

Definition update_socket (s : SocketId) (f : Socket -> Socket) : M unit :=
  modify (updated s f).

(** *** Runtime services *)

Definition console (level : string) (args : list logarg) : M unit :=
  tell [Console level args].

(** [this.emit(op, data)]: the event reaches the dispatcher; whatever a
    subscriber throws comes out of [emit]. *)
Definition emit (op data : jsval) : M unit :=
  tell [Emit op data] ;;
  x <- gets ext ;;
  let '(x', c) := listeners op data x in
  modify (with_ext x') ;;
  lift c.

(** ** parseSocketData *)

(** The body of the loop over [chunks], at index [i]; [continue] ends the
    iteration. *)
Definition parseSocketData_body (callback : jsval -> M unit)
    (chunks : list string) (incompleteData : bool) (i : nat) (chunk : string)
  : M unit :=
  if String.length chunk =? 0 then ret tt
  else
    modify (with_this (fun t =>
      set_pendingSocketData (pendingSocketData t +:+ chunk) t)) ;;
    if (i =? length chunks - 1) && incompleteData then ret tt
    else
      json <- try_catch
                (p <- gets (fun h => pendingSocketData (this h)) ;;
                 lift (JSON_parse p))
                (fun error =>
                   p <- gets (fun h => pendingSocketData (this h)) ;;
                   console "error"
                     [Text "[storage/influx] failed to parse socket data";
                      Text (message error); Text p] ;;
                   ret JUndefined) ;;
      (if truthy json then
         try_catch (tell [Callback json] ;; callback json)
           (fun error =>
              console "error"
                [Text "[storage/influx] failed to execute callback data";
                 Err error; Value json])
       else ret tt) ;;
      modify (with_this (set_pendingSocketData "")).

Definition parseSocketData (callback : jsval -> M unit) (data : Buffer)
  : M unit :=
  let stringData := toString data in
  let incompleteData :=
    negb (bool_decide
            (char_at stringData (Z.of_nat (String.length stringData) - 1)
             = Some "#"%char)) in
  if has_indexOf stringData "#" then
    let chunks := split "#" stringData in
    for_each (parseSocketData_body callback chunks incompleteData) 0 chunks
  else
    modify (with_this (fun t =>
      set_pendingSocketData (pendingSocketData t +:+ stringData) t)).

(** ** The cluster node (hub) *)

(** [a.join(sep)]: only an array has the method; the joined text is kept
    symbolic. *)
Definition join (a : jsval) (sep : string) : completion logarg :=
  match a with
  | JArr items => Normal (Joined items sep)
  | JUndefined | JNull =>
      Throw (TypeError "Cannot read properties of undefined (reading 'join')")
  | _ => Throw (TypeError "socket.indexes.join is not a function")
  end.

(** [a.indexOf(x) !== -1] for a string [x]: arrays compare elements with
    [===], strings search for a substring, nothing else has the method. *)
Definition indexOf_found (a : jsval) (x : string) : completion bool :=
  match a with
  | JArr items => Normal (existsb (fun item => strict_eq_str item x) items)
  | JStr s => Normal (has_indexOf s x)
  | JUndefined | JNull =>
      Throw (TypeError "Cannot read properties of undefined (reading 'indexOf')")
  | _ => Throw (TypeError "indexOf is not a function")
  end.

(** [l.indexOf(x)] on the registry: references are compared by identity. *)
Fixpoint indexOf (l : list SocketId) (x : SocketId) : option nat :=
  match l with
  | [] => None
  | y :: l' => if y =? x then Some 0 else S <$> indexOf l' x
  end.

(** The callback [createCluster] gives to [parseSocketData] for [socket]. *)
Definition cluster_callback (socket : SocketId) (data : jsval) : M unit :=
  op <- lift (get_prop data "op") ;;
  if strict_eq_str op "welcome" then
    d <- lift (get_prop data "data") ;;
    markets0 <- lift (get_prop d "markets") ;;
    indexes0 <- lift (get_prop d "indexes") ;;
    update_socket socket (set_markets markets0) ;;
    update_socket socket (set_indexes indexes0) ;;
    ixs <- gets (fun h => indexes (socket_of h socket)) ;;
    joined <- lift (join ixs ", ") ;;
    console "log"
      [Text "[socket/cluster] registered collector with indexes"; joined] ;;
    modify (with_this (fun t =>
      set_clusteredCollectors (clusteredCollectors t ++ [socket]) t))
  else
    d <- lift (get_prop data "data") ;;
    emit op d.

(** [socket.on('end', ...)] *)
Definition cluster_on_end (socket : SocketId) : M unit :=
  console "log" [Text "[socket/cluster] collector disconnected (unexpectedly)"] ;;
  index <- gets (fun h => indexOf (clusteredCollectors (this h)) socket) ;;
  match index with
  | Some i =>
      modify (with_this (fun t =>
        set_clusteredCollectors (delete i (clusteredCollectors t)) t))
  | None => ret tt
  end ;;
  update_socket socket set_destroyed.

(** [socket.on('data', ...)] *)
Definition cluster_on_data (socket : SocketId) (data : Buffer) : M unit :=
  parseSocketData (cluster_callback socket) data.

(** The connection listener given to [net.createServer]. *)
Definition cluster_on_connection (socket : SocketId) : M unit :=
  console "log" [Text "[socket/cluster] collector connected successfully"] ;;
  (* socket.on('end', cluster_on_end socket) *)
  modify (with_this (set_pendingSocketData "")) ;;
  (* socket.on('data', cluster_on_data socket) *)
  ret tt.

(** [createCluster]: removing a stale socket file is outside the model. *)
Definition createCluster : M unit :=
  modify (with_this (set_serverSocket true)).

(** [a && b] and [a || b], which evaluate [b] only when needed. *)
Definition and_then (a : bool) (b : M bool) : M bool :=
  if a then b else ret false.
Definition or_else (a : M bool) (b : M bool) : M bool :=
  x <- a ;; if x then ret true else b.

(** The loop of [getNodeByMarket] over the records from index [j] on;
    [None] is the [undefined] the function returns when the loop ends. *)
Fixpoint getNodeByMarket_loop (isIndex : bool) (market : string)
    (l : list SocketId) : M (option SocketId) :=
  match l with
  | [] => ret None
  | node :: l' =>
      o <- gets (fun h => socket_of h node) ;;
      found <- or_else
                 (and_then isIndex (lift (indexOf_found (indexes o) market)))
                 (and_then (negb isIndex)
                    (lift (indexOf_found (markets o) market))) ;;
      if found then ret (Some node)
      else getNodeByMarket_loop isIndex market l'
  end.

Definition getNodeByMarket (market : string) : M (option SocketId) :=
  let isIndex := negb (has_indexOf market ":") in
  l <- gets (fun h => clusteredCollectors (this h)) ;;
  getNodeByMarket_loop isIndex market l.

(** ** The collector node (spoke) *)

(** [net.createConnection(path)]: a new socket object. *)
Definition createConnection : M SocketId :=
  s <- gets next_socket ;;
  modify (fun h =>
    {| this := this h; sockets := <[s := new_socket]> (sockets h);
       timers := timers h; next_socket := S s;
       next_timer := next_timer h; ext := ext h |}) ;;
  ret s.

(** [setTimeout(callback, delay)] with the one callback this file arms,
    [collector_on_timeout] below; the result is the new timer. *)
Definition setTimeout : M TimerId :=
  t <- gets next_timer ;;
  modify (fun h =>
    {| this := this h; sockets := sockets h;
       timers := {[t]} ∪ timers h; next_socket := next_socket h;
       next_timer := S t; ext := ext h |}) ;;
  ret t.

Definition clearTimeout (t : TimerId) : M unit :=
  modify (with_timers (fun ts => ts ∖ {[t]})).

Definition welcome : jsval :=
  JObj [("op", JStr "welcome");
        ("data", JObj [("markets", JArr (JStr <$> pairs config));
                       ("indexes", JArr (JStr <$> index_ids config))])].

(** ['connect'] *)
Definition collector_on_connect : M unit :=
  console "log" [Text "[socket/collector] successfully connected to cluster"] ;;
  cs <- gets (fun h => clusterSocket (this h)) ;;
  match cs with
  | Some s => tell [SocketWrite s (JSON_stringify welcome +:+ "#")]
  | None => throw (TypeError "Cannot read properties of null (reading 'write')")
  end.

(** The callback [connectToCluster] gives to [parseSocketData]. *)
Definition collector_callback (data : jsval) : M unit :=
  op <- lift (get_prop data "op") ;;
  d <- lift (get_prop data "data") ;;
  emit op d.

(** ['data'] *)
Definition collector_on_data (data : Buffer) : M unit :=
  parseSocketData collector_callback data.

Definition connectToCluster : M unit :=
  cs <- gets (fun h => clusterSocket (this h)) ;;
  match cs with
  | Some _ => console "warn" [Text "[socket/collector] already connected (aborting)"]
  | None =>
      console "debug" [Text "[socket/collector] connecting to cluster.."] ;;
      s <- createConnection ;;
      modify (with_this (set_clusterSocket (Some s))) ;;
      (* on('connect', collector_on_connect) *)
      modify (with_this (set_pendingSocketData ""))
      (* on('data', collector_on_data), on('close', collector_on_close),
         on('error', collector_on_error) *)
  end.

(** The callback of the reconnection timer. *)
Definition collector_on_timeout : M unit :=
  modify (with_this (set_clusterConnectionTimeout None)) ;;
  connectToCluster.

Definition reconnectCluster : M unit :=
  cs <- gets (fun h => clusterSocket (this h)) ;;
  match cs with
  | Some s =>
      update_socket s set_destroyed ;;
      modify (with_this (set_clusterSocket None))
  | None => ret tt
  end ;;
  pending <- gets (fun h => _clusterConnectionTimeout (this h)) ;;
  match pending with
  | Some t => clearTimeout t
  | None =>
      console "log"
        [Text "[socket/collector] schedule reconnect to cluster (";
         Seconds (influxCollectorsReconnectionDelay config); Text "s)"]
  end ;;
  t <- setTimeout ;;
  modify (with_this (set_clusterConnectionTimeout (Some t))).

(** ['close'] *)
Definition collector_on_close (hadError : bool) : M unit :=
  console (if hadError then "error" else "log")
    [Text "[socket/collector] cluster closed"] ;;
  reconnectCluster.

(** ['error'] *)
Definition collector_on_error : M unit :=
  reconnectCluster.

(** [close()] up to its [await]: the socket is asked to end. *)
Definition close : M unit :=
  cs <- gets (fun h => clusterSocket (this h)) ;;
  match cs with
  | Some s =>
      console "log" [Text "[socket/collector] closing cluster connection"] ;;
      update_socket s set_ended
  | None => ret tt
  end.

(** The callback of [end]: [close()] resumes and completes. *)
Definition close_on_end : M unit :=
  console "log" [Text "[socket/collector] successfully closed cluster connection"].

(** ** The constructor *)

(** The heap before the constructor has run: no sockets, no timers.
    [pendingSocketData] is assigned [''] before any data handler exists, so
    the field starts as the empty string here. *)
Definition empty_heap (x : Ext) : Heap :=
  {| this := {| clusterSocket := None; serverSocket := false;
                clusteredCollectors := []; pendingSocketData := "";
                _clusterConnectionTimeout := None |};
     sockets := ∅; timers := ∅; next_socket := 0; next_timer := 0; ext := x |}.

Definition constructor : M unit :=
  if influxCollectors config then
    if api config && negb (collect config) then createCluster
    else if negb (api config) && collect config then connectToCluster
    else ret tt
  else ret tt.

(** ** Events *)

(** What the runtime can deliver to the cluster node. *)
Inductive cluster_input : Type :=
| Connection
| SocketData (socket : SocketId) (data : Buffer)
| SocketEnd (socket : SocketId).

(** A new connection gets a socket object of its own. *)
Definition cluster_handle (i : cluster_input) : M unit :=
  match i with
  | Connection =>
      s <- gets next_socket ;;
      modify (fun h =>
        {| this := this h; sockets := <[s := new_socket]> (sockets h);
           timers := timers h; next_socket := S s;
           next_timer := next_timer h; ext := ext h |}) ;;
      cluster_on_connection s
  | SocketData s data => cluster_on_data s data
  | SocketEnd s => cluster_on_end s
  end.

(** What can happen to the collector node: socket and timer events, and
    calls of its methods from the rest of the program. *)
Inductive collector_input : Type :=
| Connect
| Data (data : Buffer)
| Close (hadError : bool)
| Error
| TimerFired (t : TimerId)
| CallConnectToCluster
| CallReconnectCluster
| CallClose
| CloseEnded.

(** Only a pending timer fires, and it fires once. *)
Definition collector_handle (i : collector_input) : M unit :=
  match i with
  | Connect => collector_on_connect
  | Data data => collector_on_data data
  | Close hadError => collector_on_close hadError
  | Error => collector_on_error
  | TimerFired t =>
      ts <- gets timers ;;
      if decide (t ∈ ts) then
        modify (with_timers (fun ts => ts ∖ {[t]})) ;;
        collector_on_timeout
      else ret tt
  | CallConnectToCluster => connectToCluster
  | CallReconnectCluster => reconnectCluster
  | CallClose => close
  | CloseEnded => close_on_end
  end.

(** A run of the event loop; an exception no handler catches ends it. *)
Fixpoint run {I} (handle : I -> M unit) (inputs : list I) : M unit :=
  match inputs with
  | [] => ret tt
  | i :: rest => handle i ;; run handle rest
  end.

End SocketService.

Notation "x <- m ;; k" := (bind m (fun x => k))
  (at level 100, m at next level, k at level 200, right associativity)
  : M_scope.
Notation "m ;; k" := (bind m (fun _ => k))
  (at level 100, k at level 200, right associativity) : M_scope.
Bind Scope M_scope with M.

(** ** A reader and a writer for JSON

    [JSON.parse] and [JSON.stringify] belong to the runtime; the service
    above is parametric in them.  To run the service on concrete input, here
    is a reader for the JSON texts whose numbers are integer literals and
    whose strings use no [\u] escape (any other text is rejected), and the
    matching writer. *)
Module Json.

Definition dquote : ascii := "034".

Definition is_ws (c : ascii) : bool :=
  let n := nat_of_ascii c in
  (n =? 32) || (n =? 9) || (n =? 10) || (n =? 13).

Fixpoint skip_ws (s : string) : string :=
  match s with
  | String c s' => if is_ws c then skip_ws s' else s
  | EmptyString => s
  end.

Definition digit (c : ascii) : option Z :=
  let n := nat_of_ascii c in
  if (48 <=? n) && (n <=? 57) then Some (Z.of_nat (n - 48)) else None.

Fixpoint digits (acc : Z) (s : string) : Z * string :=
  match s with
  | String c s' =>
      match digit c with
      | Some d => digits (10 * acc + d) s'
      | None => (acc, s)
      end
  | EmptyString => (acc, s)
  end.

(** An integer literal without sign; a fraction or an exponent is refused. *)
Definition natural (s : string) : option (Z * string) :=
  match s with
  | String c s' =>
      match digit c with
      | Some d =>
          let '(n, rest) := if (d =? 0)%Z then (0%Z, s') else digits d s' in
          match rest with
          | String c' _ =>
              if match digit c' with Some _ => true | None => false end
                 || Ascii.eqb c' "." || Ascii.eqb c' "e" || Ascii.eqb c' "E"
              then None else Some (n, rest)
          | EmptyString => Some (n, rest)
          end
      | None => None
      end
  | EmptyString => None
  end.

(** The characters of a string literal after its opening quote. *)
Fixpoint chars (s : string) : option (string * string) :=
  match s with
  | EmptyString => None
  | String c s' =>
      if Ascii.eqb c dquote then Some (EmptyString, s')
      else if Ascii.eqb c "\" then
        match s' with
        | String e s'' =>
            let plain (x : ascii) :=
              match chars s'' with
              | Some (str, rest) => Some (String x str, rest)
              | None => None
              end in
            if Ascii.eqb e dquote || Ascii.eqb e "\" || Ascii.eqb e "/"
            then plain e
            else if Ascii.eqb e "b" then plain (ascii_of_nat 8)
            else if Ascii.eqb e "f" then plain (ascii_of_nat 12)
            else if Ascii.eqb e "n" then plain (ascii_of_nat 10)
            else if Ascii.eqb e "r" then plain (ascii_of_nat 13)
            else if Ascii.eqb e "t" then plain (ascii_of_nat 9)
            else None
        | EmptyString => None
        end
      else if nat_of_ascii c <? 32 then None
      else
        match chars s' with
        | Some (str, rest) => Some (String c str, rest)
        | None => None
        end
  end.

Definition literal (word : string) (v : jsval) (s : string)
  : option (jsval * string) :=
  if String.prefix word s
  then Some (v, String.substring (String.length word)
                  (String.length s - String.length word) s)
  else None.

Fixpoint value (fuel : nat) (s : string) : option (jsval * string) :=
  match fuel with
  | 0 => None
  | S fuel =>
      match skip_ws s with
      | String c rest =>
          if Ascii.eqb c "{" then
            match skip_ws rest with
            | String c' rest' =>
                if Ascii.eqb c' "}" then Some (JObj [], rest')
                else members fuel (skip_ws rest) []
            | EmptyString => None
            end
          else if Ascii.eqb c "[" then
            match skip_ws rest with
            | String c' rest' =>
                if Ascii.eqb c' "]" then Some (JArr [], rest')
                else elements fuel (skip_ws rest) []
            | EmptyString => None
            end
          else if Ascii.eqb c dquote then
            match chars rest with
            | Some (str, rest') => Some (JStr str, rest')
            | None => None
            end
          else if Ascii.eqb c "-" then
            match natural rest with
            | Some (n, rest') => Some (JNum (- n), rest')
            | None => None
            end
          else if Ascii.eqb c "t" then literal "true" (JBool true) (String c rest)
          else if Ascii.eqb c "f" then literal "false" (JBool false) (String c rest)
          else if Ascii.eqb c "n" then literal "null" JNull (String c rest)
          else
            match natural (String c rest) with
            | Some (n, rest') => Some (JNum n, rest')
            | None => None
            end
      | EmptyString => None
      end
  end
with elements (fuel : nat) (s : string) (acc : list jsval)
  : option (jsval * string) :=
  match fuel with
  | 0 => None
  | S fuel =>
      match value fuel s with
      | Some (v, rest) =>
          match skip_ws rest with
          | String c rest' =>
              if Ascii.eqb c "," then elements fuel rest' (v :: acc)
              else if Ascii.eqb c "]" then Some (JArr (rev (v :: acc)), rest')
              else None
          | EmptyString => None
          end
      | None => None
      end
  end
with members (fuel : nat) (s : string) (acc : list (string * jsval))
  : option (jsval * string) :=
  match fuel with
  | 0 => None
  | S fuel =>
      match skip_ws s with
      | String q s1 =>
          if Ascii.eqb q dquote then
            match chars s1 with
            | Some (k, s2) =>
                match skip_ws s2 with
                | String c s3 =>
                    if Ascii.eqb c ":" then
                      match value fuel s3 with
                      | Some (v, rest) =>
                          match skip_ws rest with
                          | String c' rest' =>
                              if Ascii.eqb c' ","
                              then members fuel rest' ((k, v) :: acc)
                              else if Ascii.eqb c' "}"
                              then Some (JObj (rev ((k, v) :: acc)), rest')
                              else None
                          | EmptyString => None
                          end
                      | None => None
                      end
                    else None
                | EmptyString => None
                end
            | None => None
            end
          else None
      | EmptyString => None
      end
  end.

Definition parse (text : string) : completion jsval :=
  match value (2 * String.length text + 2) text with
  | Some (v, rest) =>
      match skip_ws rest with
      | EmptyString => Normal v
      | _ => Throw (SyntaxError "Unexpected non-whitespace character after JSON")
      end
  | None => Throw (SyntaxError "Unexpected token in JSON")
  end.

Definition hex_digit (n : nat) : ascii :=
  ascii_of_nat (if n <? 10 then 48 + n else 87 + n).

Fixpoint quote_chars (s : string) : string :=
  match s with
  | EmptyString => EmptyString
  | String c s' =>
      let n := nat_of_ascii c in
      (if Ascii.eqb c dquote then String "\" (String dquote "")
       else if Ascii.eqb c "\" then "\\"
       else if n =? 8 then "\b"
       else if n =? 12 then "\f"
       else if n =? 10 then "\n"
       else if n =? 13 then "\r"
       else if n =? 9 then "\t"
       else if n <? 32 then
         "\u00" +:+ String (hex_digit (n / 16)) (String (hex_digit (n mod 16)) "")
       else String c "") +:+ quote_chars s'
  end.

Definition quote (s : string) : string :=
  String dquote (quote_chars s +:+ String dquote "").

Definition commas (l : list string) : string := String.concat "," l.

(** A member of an object whose value is [undefined] is left out; an
    [undefined] element of an array is written [null]. *)
Fixpoint stringify (v : jsval) : string :=
  match v with
  | JUndefined => "undefined"
  | JNull => "null"
  | JBool true => "true"
  | JBool false => "false"
  | JNum n => DecimalString.NilZero.string_of_int (Z.to_int n)
  | JStr s => quote s
  | JArr items =>
      "[" +:+ commas ((fix go (l : list jsval) : list string :=
                          match l with
                          | [] => []
                          | JUndefined :: l' => "null" :: go l'
                          | x :: l' => stringify x :: go l'
                          end) items) +:+ "]"
  | JObj fields =>
      "{" +:+ commas ((fix go (l : list (string * jsval)) : list string :=
                          match l with
                          | [] => []
                          | (_, JUndefined) :: l' => go l'
                          | (k, x) :: l' =>
                              (quote k +:+ ":" +:+ stringify x) :: go l'
                          end) fields) +:+ "}"
  end.

(** [Buffer.prototype.toString] on bytes that are ASCII text. *)
Definition toString (data : Buffer) : string := string_of_list_byte data.

(** The bytes of an ASCII text, written with ['] for the double quote. *)
Fixpoint requote (text : string) : string :=
  match text with
  | EmptyString => EmptyString
  | String c text' =>
      String (if Ascii.eqb c "'" then dquote else c) (requote text')
  end.

Definition bytes (text : string) : Buffer := list_byte_of_string (requote text).

End Json.

(** ** Concrete environments *)

Definition cluster_config : Config :=
  {| influxCollectors := true; api := true; collect := false;
     influxCollectorsClusterSocketPath := "/tmp/aggr.sock";
     influxCollectorsReconnectionDelay := 5000;
     pairs := []; index_ids := [] |}.

Definition collector_config : Config :=
  {| influxCollectors := true; api := false; collect := true;
     influxCollectorsClusterSocketPath := "/tmp/aggr.sock";
     influxCollectorsReconnectionDelay := 5000;
     pairs := ["BITMEX:XBTUSD"; "COINBASE:BTC-USD"]; index_ids := ["BTCUSD"] |}.

(** Subscribers without a state that accept every event, or refuse it. *)
Definition accepting (op data : jsval) (x : unit) : unit * completion unit :=
  (x, Normal tt).
Definition refusing (op data : jsval) (x : unit) : unit * completion unit :=
  (x, Throw (Thrown "subscriber failed")).

Definition node (subscribers : jsval -> jsval -> unit -> unit * completion unit)
    (cfg : Config) : Environment :=
  {| JSON_parse := Json.parse; JSON_stringify := Json.stringify;
     toString := Json.toString; Ext := unit;
     listeners := subscribers; config := cfg |}.

Definition cluster_node : Environment := node accepting cluster_config.
Definition unlucky_cluster_node : Environment := node refusing cluster_config.
Definition collector_node : Environment := node accepting collector_config.



(** A cluster node on which two collectors have registered, the second one
    with a market and an index of the first among its own. *)
Definition two_collectors : Heap (H := cluster_node) :=
  heap (run (H := cluster_node) cluster_handle
    [Connection; Connection;
     SocketData 0 (Json.bytes
       "{'op':'welcome','data':{'markets':['BITMEX:XBTUSD'],'indexes':['BTCUSD']}}#");
     SocketData 1 (Json.bytes
       "{'op':'welcome','data':{'markets':['COINBASE:BTC-USD','BITMEX:XBTUSD'],'indexes':['ETHUSD','BTCUSD']}}#")]
    (empty_heap (H := cluster_node) tt)).

(** ** Vocabulary of the statements *)

Section Vocabulary.

Context `{Environment}.

(** [v.k], or [undefined] where the access throws. *)
Definition prop (v : jsval) (k : string) : jsval :=
  match get_prop v k with Normal x => x | Throw _ => JUndefined end.

(** The handshake test of the cluster callback. *)
Definition is_welcome (data : jsval) : bool :=
  strict_eq_str (prop data "op") "welcome".

(** The [(op, data)] pairs given to [this.emit], in order. *)
Fixpoint emits (t : list event) : list (jsval * jsval) :=
  match t with
  | [] => []
  | Emit op data :: t' => (op, data) :: emits t'
  | _ :: t' => emits t'
  end.

(** The messages given to the callback, in order. *)
Fixpoint calls (t : list event) : list jsval :=
  match t with
  | [] => []
  | Callback json :: t' => json :: calls t'
  | _ :: t' => calls t'
  end.

(** What the cluster node has to emit for the messages it decoded. *)
Fixpoint forwarded (decoded : list jsval) : list (jsval * jsval) :=
  match decoded with
  | [] => []
  | json :: rest =>
      if is_welcome json then forwarded rest
      else (prop json "op", prop json "data") :: forwarded rest
  end.

(** The line [parseSocketData] prints when the callback has thrown. *)
Definition callback_failure (error : error) (json : jsval) : event :=
  Console "error"
    [Text "[storage/influx] failed to execute callback data";
     Err error; Value json].

Definition is_callback_failure (ev : event) : bool :=
  match ev with
  | Console level (Text text :: _) =>
      String.eqb level "error"
      && String.eqb text "[storage/influx] failed to execute callback data"
  | _ => false
  end.

(** The line [parseSocketData] prints when [JSON.parse] has thrown. *)
Definition parse_failure (error : error) (pending : string) : event :=
  Console "error"
    [Text "[storage/influx] failed to parse socket data";
     Text (message error); Text pending].

(** A callback with a [try]/[catch] of its own around every call that prints
    the same line, and one that drops what is thrown. *)
Definition logged (callback : jsval -> M unit) (json : jsval) : M unit :=
  try_catch (callback json) (fun error => tell [callback_failure error json]).

Definition quiet (callback : jsval -> M unit) (json : jsval) : M unit :=
  try_catch (callback json) (fun _ => ret tt).

(** A trace without the lines about callbacks that have thrown. *)
Definition without_callback_failures (t : list event) : list event :=
  List.filter (fun ev => negb (is_callback_failure ev)) t.

(** The buffer after [chunk] has been appended, and after the flush. *)
Definition appended (chunk : string) (h : Heap) : Heap :=
  with_this (fun t =>
    set_pendingSocketData (pendingSocketData t +:+ chunk) t) h.

Definition flushed (h : Heap) : Heap :=
  with_this (set_pendingSocketData "") h.

(** One iteration of the loop of [parseSocketData], case by case. *)
Definition body_result (callback : jsval -> M unit) (chunks : list string)
    (incompleteData : bool) (i : nat) (chunk : string) (h : Heap)
  : list event * Heap * completion unit :=
  if String.length chunk =? 0 then ([], h, Normal tt)
  else if (i =? length chunks - 1) && incompleteData
  then ([], appended chunk h, Normal tt)
  else
    let h1 := appended chunk h in
    match JSON_parse (pendingSocketData (this h1)) with
    | Throw error =>
        ([parse_failure error (pendingSocketData (this h1))],
         flushed h1, Normal tt)
    | Normal json =>
        if truthy json then
          match callback json h1 with
          | (t, h2, Normal _) => (Callback json :: t, flushed h2, Normal tt)
          | (t, h2, Throw error) =>
              (Callback json :: t ++ [callback_failure error json],
               flushed h2, Normal tt)
          end
        else ([], flushed h1, Normal tt)
    end.

(** The heap after the handshake of [socket]: its two properties are
    assigned, then it is pushed on the registry. *)
Definition registered (socket : SocketId) (markets0 indexes0 : jsval)
    (h : Heap) : Heap :=
  with_this (fun t =>
    set_clusteredCollectors (clusteredCollectors t ++ [socket]) t)
    (updated socket (set_indexes indexes0)
       (updated socket (set_markets markets0) h)).

(** What the cluster callback does, case by case. *)
Definition cluster_callback_result (socket : SocketId) (data : jsval)
    (h : Heap) : list event * Heap * completion unit :=
  match get_prop data "op" with
  | Throw e => ([], h, Throw e)
  | Normal op =>
      if strict_eq_str op "welcome" then
        match get_prop data "data" with
        | Throw e => ([], h, Throw e)
        | Normal d =>
            match get_prop d "markets", get_prop d "indexes" with
            | Normal markets0, Normal indexes0 =>
                match join indexes0 ", " with
                | Normal joined =>
                    ([Console "log"
                        [Text "[socket/cluster] registered collector with indexes";
                         joined]],
                     registered socket markets0 indexes0 h, Normal tt)
                | Throw e =>
                    ([], updated socket (set_indexes indexes0)
                           (updated socket (set_markets markets0) h), Throw e)
                end
            | Throw e, _ | _, Throw e => ([], h, Throw e)
            end
        end
      else
        match get_prop data "data" with
        | Throw e => ([], h, Throw e)
        | Normal d =>
            let '(x, c) := listeners op d (ext h) in
            ([Emit op d], with_ext x h, c)
        end
  end.

(** The records of the registry hold arrays. *)
Definition is_array (v : jsval) : bool :=
  match v with JArr _ => true | _ => false end.

Definition well_formed_registry (h : Heap) : bool :=
  forallb (fun node =>
             is_array (markets (socket_of h node))
             && is_array (indexes (socket_of h node)))
    (clusteredCollectors (this h)).

(** The array [v] has the string [x] among its elements. *)
Definition contains (v : jsval) (x : string) : bool :=
  match v with
  | JArr items => existsb (fun item => strict_eq_str item x) items
  | _ => false
  end.

(** The record [node] owns [market]: among its indexes when [market] has no
    [:], among its markets otherwise. *)
Definition owns (h : Heap) (market : string) (node : SocketId) : bool :=
  if negb (has_indexOf market ":")
  then contains (indexes (socket_of h node)) market
  else contains (markets (socket_of h node)) market.

(** The registry without the first occurrence of [x], if there is one. *)
Definition without_first (l : list SocketId) (x : SocketId) : list SocketId :=
  match indexOf l x with Some i => delete i l | None => l end.


(** The timer the service remembers, as a set. *)
Definition remembered_timer (h : Heap) : gset TimerId :=
  match _clusterConnectionTimeout (this h) with
  | Some t => {[t]}
  | None => ∅
  end.

(** The pending timers are the remembered one, and no pending timer has an
    identity [setTimeout] will give. *)
Definition timers_tracked (h : Heap) : Prop :=
  timers h = remembered_timer h /\ forall t, t ∈ timers h -> t < next_timer h.

(** The heap once the constructor has run and the inputs were handled. *)
Definition reached (inputs : list collector_input) (x : Ext) : Heap :=
  heap (bind constructor (fun _ => run collector_handle inputs) (empty_heap x)).

(** A relation between the heap before, the trace and the heap after holds
    of every run of [m]. *)
Definition holds {A} (R : Heap -> list event -> Heap -> Prop) (m : M A) : Prop :=
  forall h, R h (trace (m h)) (heap (m h)).

(** [m] never throws. *)
Definition returns {A} (m : M A) : Prop :=
  forall h, exists a, outcome (m h) = Normal a.

(** What the collector node has to emit for the messages it decoded: all
    of them. *)
Definition forwarded_all (decoded : list jsval) : list (jsval * jsval) :=
  (fun json => (prop json "op", prop json "data")) <$> decoded.

(** [parseSocketData] on the text of the chunk. *)
Definition incomplete (stringData : string) : bool :=
  negb (bool_decide
          (char_at stringData (Z.of_nat (String.length stringData) - 1)
           = Some "#"%char)).

Definition parse_text (callback : jsval -> M unit) (stringData : string)
  : M unit :=
  if has_indexOf stringData "#" then
    for_each
      (parseSocketData_body callback (split "#" stringData)
         (incomplete stringData)) 0 (split "#" stringData)
  else
    modify (with_this (fun t =>
      set_pendingSocketData (pendingSocketData t +:+ stringData) t)).

(** One iteration, told whether its segment is the incomplete tail, and the
    loop over the segments that are left. *)
Definition step (callback : jsval -> M unit) (tail : bool) (chunk : string)
  : M unit :=
  parseSocketData_body callback [] tail 0 chunk.

Fixpoint loop (callback : jsval -> M unit) (incompleteData : bool)
    (l : list string) : M unit :=
  match l with
  | [] => ret tt
  | chunk :: l' =>
      bind (step callback
              (match l' with [] => true | _ => false end && incompleteData)
              chunk)
        (fun _ => loop callback incompleteData l')
  end.

(** The segments of a text and of the text that follows it, as the segments
    of the two texts put together: the last of the first joins the first of
    the second. *)
Fixpoint glue (l : list string) (first : string) (rest : list string)
  : list string :=
  match l with
  | [] => first :: rest
  | x :: l' =>
      match l' with
      | [] => (x +:+ first) :: rest
      | _ => x :: glue l' first rest
      end
  end.

(** The text ends with the delimiter; it ends inside a frame; it starts
    with the delimiter. *)
Fixpoint ends_with_delimiter (s : string) : bool :=
  match s with
  | EmptyString => false
  | String c s' =>
      match s' with
      | EmptyString => Ascii.eqb c "#"
      | _ => ends_with_delimiter s'
      end
  end.

Definition ends_inside_frame (s : string) : bool :=
  negb (String.eqb s "") && negb (ends_with_delimiter s).

Definition starts_with_delimiter (s : string) : bool :=
  match s with
  | String c _ => Ascii.eqb c "#"
  | EmptyString => false
  end.

(** No chunk starts with the delimiter of a frame the chunks before it
    have left open; [before] is the text received so far. *)
Fixpoint well_split (before : string) (chunks : list Buffer) : bool :=
  match chunks with
  | [] => true
  | chunk :: rest =>
      negb (ends_inside_frame before && starts_with_delimiter (toString chunk))
      && well_split (before +:+ toString chunk) rest
  end.

(** The chunks decode piece by piece: no chunk ends inside a character. *)
Definition decodes_piecewise (chunks : list Buffer) : Prop :=
  forall before chunk after,
    chunks = before ++ chunk :: after ->
    toString (concat before ++ chunk)
    = toString (concat before) +:+ toString chunk.

(** The stream of the frames with the given texts. *)
Fixpoint frames (texts : list string) : string :=
  match texts with
  | [] => ""
  | text :: rest => text +:+ "#" +:+ frames rest
  end.

(** Every socket the collector has created is destroyed, except the one
    it holds now, which is among the sockets created. *)
Definition others_destroyed (h : Heap) : Prop :=
  (forall s, clusterSocket (this h) = Some s -> s < next_socket h)
  /\ (forall s, s < next_socket h -> clusterSocket (this h) <> Some s ->
        destroyed (socket_of h s) = true).

End Vocabulary.

(** ** Properties *)

Section Monad.

Context `{Environment}.

Lemma bind_run {A B} (m : M A) (k : A -> M B) (h : Heap) :
  bind m k h =
  match m h with
  | (t1, h1, Normal a) =>
      match k a h1 with (t2, h2, c) => (t1 ++ t2, h2, c) end
  | (t1, h1, Throw e) => (t1, h1, Throw e)
  end.
Proof. reflexivity. Qed.

Lemma for_each_cons {A} (body : nat -> A -> M unit) i x (l : list A) h :
  for_each body i (x :: l) h =
  match body i x h with
  | (t1, h1, Normal _) =>
      match for_each body (S i) l h1 with (t2, h2, c) => (t1 ++ t2, h2, c) end
  | (t1, h1, Throw e) => (t1, h1, Throw e)
  end.
Proof. reflexivity. Qed.

(** The loop body does what [body_result] says. *)
Lemma parseSocketData_body_run callback chunks incompleteData i chunk h :
  parseSocketData_body callback chunks incompleteData i chunk h
  = body_result callback chunks incompleteData i chunk h.
Proof.
  unfold parseSocketData_body, body_result.
  destruct (String.length chunk =? 0); [reflexivity|].
  destruct ((i =? length chunks - 1) && incompleteData); [reflexivity|].
  unfold bind, try_catch, modify, gets, lift, console, tell, ret; cbn.
  fold (appended chunk h).
  destruct (JSON_parse _) as [json|error]; cbn.
  - destruct (truthy json); cbn; [|reflexivity].
    destruct (callback json (appended chunk h)) as [[t h2] [[]|e]];
      cbn; by rewrite app_nil_r.
  - reflexivity.
Qed.

End Monad.

(** Relations that compose along a run hold of loops and of
    [parseSocketData] as soon as they hold of the steps. *)
Section Rules.

Context `{Environment}.
Variable R : Heap -> list event -> Heap -> Prop.
Hypothesis R_refl : forall h, R h [] h.
Hypothesis R_trans :
  forall h1 t1 h2 t2 h3, R h1 t1 h2 -> R h2 t2 h3 -> R h1 (t1 ++ t2) h3.

Lemma holds_bind {A B} (m : M A) (k : A -> M B) :
  holds R m -> (forall a, holds R (k a)) -> holds R (bind m k).
Proof.
  intros Hm Hk h. rewrite bind_run. specialize (Hm h).
  destruct (m h) as [[t1 h1] [a|e]]; [|exact Hm].
  specialize (Hk a h1). destruct (k a h1) as [[t2 h2] c].
  exact (R_trans _ _ _ _ _ Hm Hk).
Qed.

Lemma holds_ret {A} (a : A) : holds R (ret a).
Proof. intros h. apply R_refl. Qed.

Lemma holds_for_each {A} (body : nat -> A -> M unit) :
  (forall i x, holds R (body i x)) ->
  forall l i, holds R (for_each body i l).
Proof.
  intros Hbody l. induction l as [|x l IH]; intros i.
  - apply holds_ret.
  - cbn [for_each]. apply holds_bind; [apply Hbody|]. intros _. apply IH.
Qed.

Lemma holds_run {I} (handle : I -> M unit) :
  (forall i, holds R (handle i)) ->
  forall inputs, holds R (run handle inputs).
Proof.
  intros Hh inputs. induction inputs as [|i rest IH].
  - apply holds_ret.
  - cbn [run]. apply holds_bind; [apply Hh|]. intros _. apply IH.
Qed.

Section Codec.

Variable callback : jsval -> M unit.
Hypothesis R_appended : forall chunk h, R h [] (appended chunk h).
Hypothesis R_flushed : forall h, R h [] (flushed h).
Hypothesis R_parse_failure : forall e p h, R h [parse_failure e p] h.
Hypothesis R_callback_failure : forall e json h, R h [callback_failure e json] h.
Hypothesis R_callback :
  forall json h, truthy json = true ->
    R h (Callback json :: trace (callback json h)) (heap (callback json h)).

Lemma holds_parseSocketData_body chunks incompleteData i chunk :
  holds R (parseSocketData_body callback chunks incompleteData i chunk).
Proof.
  intros h. rewrite parseSocketData_body_run. unfold body_result.
  destruct (String.length chunk =? 0); [apply R_refl|].
  destruct ((i =? length chunks - 1) && incompleteData); [apply R_appended|].
  pose proof (R_appended chunk h) as Ha.
  destruct (JSON_parse _) as [json|e].
  - destruct (truthy json) eqn:Hj.
    + pose proof (R_callback json (appended chunk h) Hj) as Hc.
      destruct (callback json (appended chunk h)) as [[t h2] [[]|e]];
        unfold trace, heap in *; cbn in *.
      * pose proof (R_trans _ _ _ _ _ Ha (R_trans _ _ _ _ _ Hc (R_flushed h2)))
          as Hr. cbn in Hr. by rewrite app_nil_r in Hr.
      * pose proof (R_trans _ _ _ _ _ Ha
                      (R_trans _ _ _ _ _ Hc
                         (R_trans _ _ _ _ _ (R_callback_failure e json h2)
                            (R_flushed h2)))) as Hr.
        exact Hr.
    + exact (R_trans _ _ _ _ _ Ha (R_flushed _)).
  - exact (R_trans _ _ _ _ _ Ha
             (R_trans _ _ _ _ _
                (R_parse_failure e (pendingSocketData (this (appended chunk h)))
                   (appended chunk h))
                (R_flushed _))).
Qed.

Lemma holds_parseSocketData data : holds R (parseSocketData callback data).
Proof.
  unfold parseSocketData.
  destruct (has_indexOf (toString data) "#").
  - apply holds_for_each. intros i x. apply holds_parseSocketData_body.
  - intros h. apply R_appended.
Qed.

End Codec.

End Rules.

Section Totality.

Context `{Environment}.

Lemma returns_bind {A B} (m : M A) (k : A -> M B) :
  returns m -> (forall a, returns (k a)) -> returns (bind m k).
Proof.
  intros Hm Hk h. rewrite bind_run. destruct (Hm h) as [a Ha].
  destruct (m h) as [[t1 h1] c]. cbn in Ha. subst c.
  destruct (Hk a h1) as [b Hb]. destruct (k a h1) as [[t2 h2] c].
  exists b. exact Hb.
Qed.

Lemma returns_for_each {A} (body : nat -> A -> M unit) :
  (forall i x, returns (body i x)) ->
  forall l i, returns (for_each body i l).
Proof.
  intros Hbody l. induction l as [|x l IH]; intros i.
  - intros h. by exists tt.
  - cbn [for_each]. apply returns_bind; [apply Hbody|]. intros _. apply IH.
Qed.

Lemma returns_parseSocketData_body callback chunks incompleteData i chunk :
  returns (parseSocketData_body callback chunks incompleteData i chunk).
Proof.
  intros h. exists tt. rewrite parseSocketData_body_run. unfold body_result.
  destruct (String.length chunk =? 0); [reflexivity|].
  destruct ((i =? length chunks - 1) && incompleteData); [reflexivity|].
  destruct (JSON_parse _) as [json|e]; [|reflexivity].
  destruct (truthy json); [|reflexivity].
  by destruct (callback json (appended chunk h)) as [[t h2] [[]|e]].
Qed.

(** [parseSocketData] never throws, whatever the callback does. *)
Lemma returns_parseSocketData callback data :
  returns (parseSocketData callback data).
Proof.
  unfold parseSocketData.
  destruct (has_indexOf (toString data) "#").
  - apply returns_for_each. intros i x. apply returns_parseSocketData_body.
  - intros h. by exists tt.
Qed.

Lemma returns_tt (m : M unit) h : returns m -> outcome (m h) = Normal tt.
Proof. intros Hm. destruct (Hm h) as [[] Ha]. exact Ha. Qed.

End Totality.

(** ** The frame codec *)

Section Codec.

Context `{Environment}.

Lemma length_zero (s : string) : (String.length s =? 0) = true <-> s = "".
Proof.
  destruct s; cbn; split; intros Hs; try reflexivity; discriminate.
Qed.

Lemma body_result_complete callback chunks incompleteData i chunk h :
  chunk <> "" ->
  (i =? length chunks - 1) && incompleteData = false ->
  body_result callback chunks incompleteData i chunk h =
  match JSON_parse (pendingSocketData (this h) +:+ chunk) with
  | Throw e =>
      ([parse_failure e (pendingSocketData (this h) +:+ chunk)],
       flushed (appended chunk h), Normal tt)
  | Normal json =>
      if truthy json then
        match callback json (appended chunk h) with
        | (t, h2, Normal _) => (Callback json :: t, flushed h2, Normal tt)
        | (t, h2, Throw e) =>
            (Callback json :: t ++ [callback_failure e json],
             flushed h2, Normal tt)
        end
      else ([], flushed (appended chunk h), Normal tt)
  end.
Proof.
  intros Hne Htail. unfold body_result.
  destruct (String.length chunk =? 0) eqn:Hlen.
  - apply length_zero in Hlen. contradiction.
  - rewrite Htail. reflexivity.
Qed.

Lemma for_each_ext {A} (body1 body2 : nat -> A -> M unit) :
  (forall i x h, body1 i x h = body2 i x h) ->
  forall l i h, for_each body1 i l h = for_each body2 i l h.
Proof.
  intros Hext l. induction l as [|x l IH]; intros i h; [reflexivity|].
  rewrite !for_each_cons, Hext.
  destruct (body2 i x h) as [[t1 h1] [[]|e]]; [|reflexivity].
  by rewrite IH.
Qed.

Lemma body_result_logged callback chunks incompleteData i chunk h :
  body_result callback chunks incompleteData i chunk h
  = body_result (logged callback) chunks incompleteData i chunk h.
Proof.
  unfold body_result.
  destruct (String.length chunk =? 0); [reflexivity|].
  destruct ((i =? length chunks - 1) && incompleteData); [reflexivity|].
  destruct (JSON_parse _) as [json|e]; [|reflexivity].
  destruct (truthy json); [|reflexivity].
  unfold logged, try_catch, tell.
  destruct (callback json (appended chunk h)) as [[t h2] [[]|e]]; reflexivity.
Qed.

Lemma parseSocketData_logged callback data h :
  parseSocketData callback data h = parseSocketData (logged callback) data h.
Proof.
  unfold parseSocketData.
  destruct (has_indexOf (toString data) "#"); [|reflexivity].
  apply for_each_ext. intros i x h'.
  rewrite !parseSocketData_body_run. apply body_result_logged.
Qed.

Lemma without_callback_failures_app t1 t2 :
  without_callback_failures (t1 ++ t2)
  = without_callback_failures t1 ++ without_callback_failures t2.
Proof. apply List.filter_app. Qed.

Lemma body_result_quiet callback chunks incompleteData i chunk h :
  let r := body_result callback chunks incompleteData i chunk h in
  let r' := body_result (quiet callback) chunks incompleteData i chunk h in
  heap r = heap r' /\ outcome r = Normal tt /\ outcome r' = Normal tt
  /\ without_callback_failures (trace r) = without_callback_failures (trace r').
Proof.
  unfold body_result.
  destruct (String.length chunk =? 0); [done|].
  destruct ((i =? length chunks - 1) && incompleteData); [done|].
  destruct (JSON_parse _) as [json|e]; [|done].
  destruct (truthy json); [|done].
  unfold quiet, try_catch, ret.
  destruct (callback json (appended chunk h)) as [[t h2] [[]|e]];
    cbn; repeat split.
  change (Callback json :: t ++ [callback_failure e json])
    with ((Callback json :: t) ++ [callback_failure e json]).
  change (Callback json :: t ++ []) with ((Callback json :: t) ++ []).
  rewrite !without_callback_failures_app. reflexivity.
Qed.

Lemma for_each_quiet callback chunks incompleteData l :
  forall i h,
    let r := for_each (parseSocketData_body callback chunks incompleteData)
               i l h in
    let r' := for_each
                (parseSocketData_body (quiet callback) chunks incompleteData)
                i l h in
    heap r = heap r'
    /\ without_callback_failures (trace r)
       = without_callback_failures (trace r').
Proof.
  induction l as [|x l IH]; intros i h; [done|].
  cbn zeta. rewrite !for_each_cons, !parseSocketData_body_run.
  pose proof (body_result_quiet callback chunks incompleteData i x h)
    as (Hh & Ho & Ho' & Ht).
  destruct (body_result callback _ _ _ _ _) as [[t1 h1] c1].
  destruct (body_result (quiet callback) _ _ _ _ _) as [[t1' h1'] c1'].
  unfold heap, outcome, trace in Hh, Ho, Ho', Ht. cbn in Hh, Ho, Ho', Ht.
  subst h1' c1 c1'.
  specialize (IH (S i) h1). cbn zeta in IH. destruct IH as [IHh IHt].
  destruct (for_each (parseSocketData_body callback _ _) _ _ _) as [[t2 h2] c2].
  destruct (for_each (parseSocketData_body (quiet callback) _ _) _ _ _)
    as [[t2' h2'] c2'].
  unfold heap, trace in *. cbn [fst snd] in *.
  split; [exact IHh|].
  rewrite !without_callback_failures_app. by f_equal.
Qed.

End Codec.

(** C2. In an iteration of [parseSocketData] on a segment that is not empty
    and is not the incomplete tail of the chunk, nothing is thrown and the
    buffer is empty afterwards, whether [JSON.parse] fails, the callback
    fails or all goes well; when [JSON.parse] throws, the iteration only
    prints the failure, so the callback is not called.  And on a new
    connection the chunk [{bad#json}#] gives two parse failures, no call of
    the callback, no exception and an empty buffer. *)
Theorem parseSocketData_flushes_buffer :
  (forall (E : Environment) (callback : jsval -> M unit)
          (chunks : list string) (incompleteData : bool) (i : nat)
          (chunk : string) (h : Heap),
      chunk <> "" ->
      (i =? length chunks - 1) && incompleteData = false ->
      let r := parseSocketData_body callback chunks incompleteData i chunk h in
      outcome r = Normal tt
      /\ pendingSocketData (this (heap r)) = ""
      /\ forall e,
           JSON_parse (pendingSocketData (this h) +:+ chunk) = Throw e ->
           trace r = [parse_failure e (pendingSocketData (this h) +:+ chunk)])
  /\ (forall (callback : jsval -> M (H := cluster_node) unit)
             (h : Heap (H := cluster_node)),
        parseSocketData callback (Json.bytes "{bad#json}#") (flushed h)
        = ([parse_failure (SyntaxError "Unexpected token in JSON") "{bad";
            parse_failure (SyntaxError "Unexpected token in JSON") "json}"],
           flushed h, Normal tt)).
Proof.
  split.
  - intros E callback chunks incompleteData i chunk h Hne Htail r. subst r.
    rewrite parseSocketData_body_run, body_result_complete by assumption.
    destruct (JSON_parse _) as [json|e].
    + destruct (truthy json).
      * destruct (callback json (appended chunk h)) as [[t h2] [[]|e]];
          repeat split; intros e'; discriminate.
      * repeat split. intros e'; discriminate.
    + repeat split. intros e' [= <-]. reflexivity.
  - intros callback h. destruct h as [[cs ss cc p ct] so ti ns nt x]. 
    reflexivity.
Qed.

(** The first segment of [{bad#json}#] on a new connection. *)
Lemma parseSocketData_flushes_buffer_witness :
  let r := parseSocketData_body (H := cluster_node) (fun _ => ret tt)
             ["{bad"; "json}"; ""] false 0 "{bad" (empty_heap (H := cluster_node) tt) in
  outcome r = Normal tt
  /\ pendingSocketData (this (heap r)) = ""
  /\ forall e,
       @JSON_parse cluster_node
         (pendingSocketData (this (empty_heap (H := cluster_node) tt))
          +:+ "{bad") = Throw e ->
       trace r = [parse_failure e "{bad"].
Proof.
  apply (proj1 parseSocketData_flushes_buffer cluster_node (fun _ => ret tt)
           ["{bad"; "json}"; ""] false 0 "{bad" (empty_heap (H := cluster_node) tt)).
  - discriminate.
  - reflexivity.
Defined.

(** C9. Whatever the callback throws, [parseSocketData] returns normally.
    It behaves as if every call of the callback had its own [try]/[catch]
    printing the failure (so each failure is caught and printed for its own
    message), and compared with a callback whose exceptions are dropped it
    ends in the same heap, with the same buffer, and with the same trace once
    the failure lines are left out: the remaining segments are processed all
    the same.  With a subscriber that refuses every event, both messages of
    a two-frame chunk are still decoded and emitted. *)
Theorem parseSocketData_contains_callback_errors :
  (forall (E : Environment) (callback : jsval -> M unit) (data : Buffer)
          (h : Heap),
      outcome (parseSocketData callback data h) = Normal tt
      /\ parseSocketData callback data h
         = parseSocketData (logged callback) data h
      /\ heap (parseSocketData callback data h)
         = heap (parseSocketData (quiet callback) data h)
      /\ without_callback_failures (trace (parseSocketData callback data h))
         = without_callback_failures
             (trace (parseSocketData (quiet callback) data h)))
  /\ (forall (socket : SocketId) (h : Heap (H := unlucky_cluster_node)),
        parseSocketData (cluster_callback socket)
          (Json.bytes "{'op':'a','data':1}#{'op':'b','data':2}#") (flushed h)
        = ([Callback (JObj [("op", JStr "a"); ("data", JNum 1)]);
            Emit (JStr "a") (JNum 1);
            callback_failure (Thrown "subscriber failed")
              (JObj [("op", JStr "a"); ("data", JNum 1)]);
            Callback (JObj [("op", JStr "b"); ("data", JNum 2)]);
            Emit (JStr "b") (JNum 2);
            callback_failure (Thrown "subscriber failed")
              (JObj [("op", JStr "b"); ("data", JNum 2)])],
           flushed h, Normal tt)).
Proof.
  split.
  - intros E callback data h. split; [|split].
    + apply returns_tt, returns_parseSocketData.
    + apply parseSocketData_logged.
    + unfold parseSocketData.
      destruct (has_indexOf (toString data) "#"); [|done].
      apply for_each_quiet.
  - intros socket h. destruct h as [[cs ss cc p ct] so ti ns nt x]. 
    reflexivity.
Qed.

(** ** The cluster node *)

Section Cluster.

Context `{Environment}.

Lemma socket_of_updated s f h : socket_of (updated s f h) s = f (socket_of h s).
Proof. unfold socket_of, updated; cbn. by rewrite lookup_insert_eq. Qed.

Lemma socket_of_updated_ne s s' f h :
  s <> s' -> socket_of (updated s f h) s' = socket_of h s'.
Proof. intros Hne. unfold socket_of, updated; cbn. by rewrite lookup_insert_ne. Qed.

Lemma cluster_callback_run socket data h :
  cluster_callback socket data h = cluster_callback_result socket data h.
Proof.
  unfold cluster_callback, cluster_callback_result.
  unfold bind, lift, update_socket, modify, gets, console, tell, emit, ret.
  destruct (get_prop data "op") as [op|e]; [|reflexivity].
  destruct (strict_eq_str op "welcome").
  - destruct (get_prop data "data") as [d|e]; [|reflexivity].
    destruct (get_prop d "markets") as [markets0|e];
      [|by destruct (get_prop d "indexes")].
    destruct (get_prop d "indexes") as [indexes0|e]; [|reflexivity].
    cbn. rewrite socket_of_updated. cbn.
    destruct (join indexes0 ", ") as [joined|e]; reflexivity.
  - destruct (get_prop data "data") as [d|e]; [|reflexivity].
    cbn. destruct (listeners op d (ext h)) as [x c]. reflexivity.
Qed.

Lemma truthy_get_prop data k :
  truthy data = true -> get_prop data k = Normal (prop data k).
Proof. unfold prop. by destruct data. Qed.


Lemma emits_app t1 t2 : emits (t1 ++ t2) = emits t1 ++ emits t2.
Proof.
  induction t1 as [|ev t1 IH]; [reflexivity|].
  destruct ev; cbn; by rewrite ?IH.
Qed.

Lemma calls_app t1 t2 : calls (t1 ++ t2) = calls t1 ++ calls t2.
Proof.
  induction t1 as [|ev t1 IH]; [reflexivity|].
  destruct ev; cbn; by rewrite ?IH.
Qed.

Lemma forwarded_app l1 l2 : forwarded (l1 ++ l2) = forwarded l1 ++ forwarded l2.
Proof.
  induction l1 as [|json l1 IH]; [reflexivity|].
  cbn. destruct (is_welcome json); cbn; by rewrite IH.
Qed.

(** The cluster callback calls no callback itself, and emits what is to be
    forwarded for its message. *)
Lemma cluster_callback_trace socket json h :
  truthy json = true ->
  calls (trace (cluster_callback socket json h)) = []
  /\ emits (trace (cluster_callback socket json h)) = forwarded [json].
Proof.
  intros Hj. rewrite cluster_callback_run. unfold cluster_callback_result.
  cbn [forwarded]. unfold is_welcome.
  rewrite !(truthy_get_prop json) by done.
  destruct (strict_eq_str (prop json "op") "welcome").
  - destruct (get_prop (prop json "data") "markets") as [markets0|e];
      [|by destruct (get_prop (prop json "data") "indexes")].
    destruct (get_prop (prop json "data") "indexes") as [indexes0|e]; [|done].
    by destruct (join indexes0 ", ").
  - by destruct (listeners _ _ _).
Qed.

End Cluster.



Section ClusterRuns.

Context `{Environment}.

Lemma cluster_on_data_holds
    (R : Heap -> list event -> Heap -> Prop) socket data :
  (forall h, R h [] h) ->
  (forall h1 t1 h2 t2 h3, R h1 t1 h2 -> R h2 t2 h3 -> R h1 (t1 ++ t2) h3) ->
  (forall chunk h, R h [] (appended chunk h)) ->
  (forall h, R h [] (flushed h)) ->
  (forall e p h, R h [parse_failure e p] h) ->
  (forall e json h, R h [callback_failure e json] h) ->
  (forall json h, truthy json = true ->
     R h (Callback json :: trace (cluster_callback socket json h))
       (heap (cluster_callback socket json h))) ->
  holds R (cluster_on_data socket data).
Proof. intros. by apply holds_parseSocketData. Qed.

Lemma cluster_handle_forwards i :
  holds (fun _ t _ => emits t = forwarded (calls t)) (cluster_handle i).
Proof.
  destruct i as [|socket data|socket].
  - intros h. reflexivity.
  - apply cluster_on_data_holds; try done.
    + intros _ t1 _ t2 _ H1 H2.
      by rewrite emits_app, calls_app, forwarded_app, H1, H2.
    + intros json h Hj.
      destruct (cluster_callback_trace socket json h Hj) as [Hc He].
      cbn [emits calls]. rewrite Hc, He. cbn.
      by destruct (is_welcome json).
  - intros h. unfold cluster_handle, cluster_on_end.
    unfold bind, console, tell, gets, modify, update_socket, ret; cbn.
    by destruct (indexOf _ _).
Qed.

End ClusterRuns.

(** C10. In every run of the cluster node, from any heap, the events given
    to [this.emit] are exactly the decoded messages that are not handshake
    messages, each once and in their order: a handshake message is never
    emitted. *)
Theorem cluster_emits_all_but_welcome :
  forall (E : Environment) (inputs : list cluster_input) (h : Heap),
    emits (trace (run cluster_handle inputs h))
    = forwarded (calls (trace (run cluster_handle inputs h))).
Proof.
  intros E inputs h.
  apply (holds_run (fun _ t _ => emits t = forwarded (calls t))); try done.
  - intros _ t1 _ t2 _ H1 H2.
    by rewrite emits_app, calls_app, forwarded_app, H1, H2.
  - apply cluster_handle_forwards.
Qed.

Section Routing.

Context `{Environment}.

Lemma getNodeByMarket_loop_run market l h :
  forallb (fun node =>
             is_array (markets (socket_of h node))
             && is_array (indexes (socket_of h node))) l = true ->
  getNodeByMarket_loop (negb (has_indexOf market ":")) market l h
  = ([], h, Normal (List.find (owns h market) l)).
Proof.
  unfold owns. destruct (has_indexOf market ":"); cbn [negb];
    (induction l as [|node l IH]; intros Hwf; [reflexivity|]);
    cbn [forallb] in Hwf; apply andb_true_iff in Hwf as [Hnode Hl];
    apply andb_true_iff in Hnode as [Hm Hi];
    cbn [getNodeByMarket_loop List.find];
    unfold bind, gets, or_else, and_then, lift, ret; cbn;
    (destruct (markets (socket_of h node)) as [| | | | |ms|];
       try discriminate);
    (destruct (indexes (socket_of h node)) as [| | | | |ixs|];
       try discriminate); cbn.
  - destruct (existsb _ ms); cbn; [reflexivity|].
    rewrite (IH Hl). reflexivity.
  - destruct (existsb _ ixs); cbn; [reflexivity|].
    rewrite (IH Hl). reflexivity.
Qed.

Lemma find_first {A} (f : A -> bool) (l : list A) (x : A) :
  List.find f l = Some x <->
  exists before after,
    l = before ++ x :: after /\ f x = true
    /\ forall y, In y before -> f y = false.
Proof.
  induction l as [|a l IH]; cbn.
  - split; [discriminate|]. intros (before & after & Hl & _).
    by destruct before.
  - destruct (f a) eqn:Ha.
    + split.
      * intros [= <-]. exists [], l. repeat split; [exact Ha|]. intros y [].
      * intros (before & after & Hl & Hx & Hb).
        destruct before as [|b before]; cbn in Hl.
        -- by injection Hl as -> _.
        -- injection Hl as -> _. rewrite (Hb b) in Ha; [discriminate|by left].
    + rewrite IH. split.
      * intros (before & after & -> & Hx & Hb).
        exists (a :: before), after. repeat split; [exact Hx|].
        intros y [<-|Hy]; [exact Ha|by apply Hb].
      * intros (before & after & Hl & Hx & Hb).
        destruct before as [|b before]; cbn in Hl.
        -- injection Hl as -> _. congruence.
        -- injection Hl as -> ->. exists before, after.
           repeat split; [exact Hx|]. intros y Hy. apply Hb. by right.
Qed.

Lemma find_none {A} (f : A -> bool) (l : list A) :
  List.find f l = None <-> forall y, In y l -> f y = false.
Proof.
  split.
  - intros Hn y Hy. by apply (List.find_none f l Hn).
  - intros Hall. induction l as [|a l IH]; [reflexivity|].
    cbn. rewrite (Hall a) by (by left). apply IH.
    intros y Hy. apply Hall. by right.
Qed.

End Routing.

(** C6. On a registry whose records hold arrays, [getNodeByMarket] changes
    nothing, prints nothing and does not throw; it tests the [indexes] of the
    records when the identifier has no [:] and their [markets] otherwise
    ([owns]); it returns the first record of the registry, in its order, that
    owns the identifier, and [None] ([undefined]) exactly when no record
    does. *)
Theorem getNodeByMarket_first_owner :
  forall (E : Environment) (market : string) (h : Heap),
    well_formed_registry h = true ->
    exists result,
      getNodeByMarket market h = ([], h, Normal result)
      /\ (forall node,
            result = Some node <->
            exists before after,
              clusteredCollectors (this h) = before ++ node :: after
              /\ owns h market node = true
              /\ forall other, In other before -> owns h market other = false)
      /\ (result = None <->
          forall node, In node (clusteredCollectors (this h)) ->
                       owns h market node = false).
Proof.
  intros E market h Hwf.
  exists (List.find (owns h market) (clusteredCollectors (this h))).
  split; [|split].
  - unfold getNodeByMarket, bind, gets; cbn.
    rewrite (getNodeByMarket_loop_run market _ h Hwf). reflexivity.
  - intros node. apply find_first.
  - apply find_none.
Qed.

(** A market both collectors own, on the registry of [two_collectors]. *)
Lemma getNodeByMarket_first_owner_witness :
  exists result,
    getNodeByMarket "BITMEX:XBTUSD" two_collectors
    = ([], two_collectors, Normal result)
    /\ (forall node,
          result = Some node <->
          exists before after,
            clusteredCollectors (this two_collectors) = before ++ node :: after
            /\ owns two_collectors "BITMEX:XBTUSD" node = true
            /\ forall other, In other before ->
                 owns two_collectors "BITMEX:XBTUSD" other = false)
    /\ (result = None <->
        forall node, In node (clusteredCollectors (this two_collectors)) ->
                     owns two_collectors "BITMEX:XBTUSD" node = false).
Proof.
  apply (getNodeByMarket_first_owner cluster_node "BITMEX:XBTUSD"
           two_collectors).
  vm_compute. reflexivity.
Defined.

(** The lookups on [two_collectors]: markets and indexes, first owner first,
    and identifiers nobody owns. *)
Example getNodeByMarket_two_collectors :
  clusteredCollectors (this two_collectors) = [0; 1]
  /\ outcome (getNodeByMarket "BITMEX:XBTUSD" two_collectors) = Normal (Some 0)
  /\ outcome (getNodeByMarket "COINBASE:BTC-USD" two_collectors)
     = Normal (Some 1)
  /\ outcome (getNodeByMarket "BTCUSD" two_collectors) = Normal (Some 0)
  /\ outcome (getNodeByMarket "ETHUSD" two_collectors) = Normal (Some 1)
  /\ outcome (getNodeByMarket "KRAKEN:XBTUSD" two_collectors) = Normal None
  /\ outcome (getNodeByMarket "LTCUSD" two_collectors) = Normal None.
Proof. vm_compute. repeat split. Qed.

(** ** The registry *)

Section Registry.

Context `{Environment}.



Lemma cluster_on_end_run socket h :
  cluster_on_end socket h =
  ([Console "log"
      [Text "[socket/cluster] collector disconnected (unexpectedly)"]],
   updated socket set_destroyed
     (with_this (fun t =>
        set_clusteredCollectors
          (without_first (clusteredCollectors t) socket) t) h),
   Normal tt).
Proof.
  destruct h as [[cs ss cc p ct] so ti ns nt x].
  unfold cluster_on_end, bind, console, tell, gets, modify, update_socket, ret.
  unfold without_first, updated, with_this. cbn.
  by destruct (indexOf cc socket).
Qed.

Lemma without_first_cons a l x :
  without_first (a :: l) x = if a =? x then l else a :: without_first l x.
Proof.
  unfold without_first. cbn. destruct (a =? x); [reflexivity|].
  by destruct (indexOf l x).
Qed.

Lemma count_occ_without_first (l : list SocketId) (x y : SocketId) :
  count_occ Nat.eq_dec (without_first l x) y
  = if decide (y = x) then pred (count_occ Nat.eq_dec l x)
    else count_occ Nat.eq_dec l y.
Proof.
  induction l as [|a l IH].
  - cbn. by destruct (decide (y = x)).
  - rewrite without_first_cons. destruct (a =? x) eqn:Hax.
    + apply Nat.eqb_eq in Hax. subst a. cbn.
      destruct (Nat.eq_dec x x) as [_|]; [|done]. cbn.
      destruct (decide (y = x)) as [->|Hne]; [done|].
      by destruct (Nat.eq_dec x y) as [->|].
    + apply Nat.eqb_neq in Hax. cbn. rewrite IH.
      destruct (decide (y = x)) as [->|Hne].
      * destruct (Nat.eq_dec a x); [done|]. reflexivity.
      * reflexivity.
Qed.


Lemma run_cons {I} (handle : I -> M unit) i rest h :
  returns (handle i) ->
  heap (run handle (i :: rest) h) = heap (run handle rest (heap (handle i h))).
Proof.
  intros Hr. cbn [run]. rewrite bind_run.
  pose proof (returns_tt _ h Hr) as Ho.
  destruct (handle i h) as [[t1 h1] c]. cbn in Ho. subst c.
  change (heap (t1, h1, Normal ())) with h1.
  by destruct (run handle rest h1) as [[t2 h2] c].
Qed.



End Registry.




(** C3. The buffer belongs to the service, not to the connection.  With two
    connections open, the bytes of one complete the bytes of the other: a
    message nobody sent is emitted.  A connection accepted while a frame of
    another is on its way empties the buffer: the frame is lost.  On one
    connection alone the same two chunks give the message. *)
Theorem cluster_connections_share_buffer :
  emits (trace (run (H := cluster_node) cluster_handle
                  [Connection; Connection;
                   SocketData 0 (Json.bytes "{'op':'a',");
                   SocketData 1 (Json.bytes "'data':1}#")]
                  (empty_heap (H := cluster_node) tt)))
  = [(JStr "a", JNum 1)]
  /\ emits (trace (run (H := cluster_node) cluster_handle
                     [Connection;
                      SocketData 0 (Json.bytes "{'op':'a',");
                      Connection;
                      SocketData 0 (Json.bytes "'data':1}#")]
                     (empty_heap (H := cluster_node) tt)))
     = []
  /\ emits (trace (run (H := cluster_node) cluster_handle
                     [Connection;
                      SocketData 0 (Json.bytes "{'op':'a',");
                      SocketData 0 (Json.bytes "'data':1}#")]
                     (empty_heap (H := cluster_node) tt)))
     = [(JStr "a", JNum 1)].
Proof. vm_compute. repeat split. Qed.

(** C1. A frame whose delimiter arrives in the next chunk is not decoded:
    in one chunk the frame gives its message; split before the [#], the
    callback is never called and the frame stays in the buffer, where the
    next frame is appended to it, so that both are lost. *)
Theorem parseSocketData_split_before_delimiter :
  (forall h : Heap (H := cluster_node),
      calls (trace (parseSocketData (fun _ => ret tt)
                      (Json.bytes "{'op':'a','data':1}#") (flushed h)))
      = [JObj [("op", JStr "a"); ("data", JNum 1)]])
  /\ (forall (callback : jsval -> M (H := cluster_node) unit)
             (h : Heap (H := cluster_node)),
        run (parseSocketData callback)
          [Json.bytes "{'op':'a','data':1}"; Json.bytes "#"] (flushed h)
        = ([], appended (Json.requote "{'op':'a','data':1}") (flushed h),
           Normal tt))
  /\ (forall (callback : jsval -> M (H := cluster_node) unit)
             (h : Heap (H := cluster_node)),
        run (parseSocketData callback)
          [Json.bytes "{'op':'a','data':1}"; Json.bytes "#";
           Json.bytes "{'op':'b','data':2}#"] (flushed h)
        = ([parse_failure
              (SyntaxError "Unexpected non-whitespace character after JSON")
              (Json.requote "{'op':'a','data':1}{'op':'b','data':2}")],
           flushed h, Normal tt)).
Proof.
  split; [|split].
  - intros h. destruct h as [[cs ss cc p ct] so ti ns nt x]. 
    reflexivity.
  - intros callback h. destruct h as [[cs ss cc p ct] so ti ns nt x]. 
    reflexivity.
  - intros callback h. destruct h as [[cs ss cc p ct] so ti ns nt x]. 
    reflexivity.
Qed.

(** ** The collector node *)

Section Collector.

Context `{Environment}.

Lemma connectToCluster_timers h :
  let h' := heap (connectToCluster h) in
  timers h' = timers h /\ next_timer h' = next_timer h
  /\ _clusterConnectionTimeout (this h') = _clusterConnectionTimeout (this h)
  /\ outcome (connectToCluster h) = Normal tt.
Proof.
  unfold connectToCluster, bind, gets, console, tell, createConnection, modify,
    ret. cbn.
  by destruct (clusterSocket (this h)).
Qed.

Lemma reconnectCluster_timers h :
  let h' := heap (reconnectCluster h) in
  timers h' = {[next_timer h]} ∪ (timers h ∖ remembered_timer h)
  /\ next_timer h' = S (next_timer h)
  /\ _clusterConnectionTimeout (this h') = Some (next_timer h)
  /\ outcome (reconnectCluster h) = Normal tt.
Proof.
  unfold reconnectCluster, bind, gets, console, tell, update_socket, modify,
    clearTimeout, setTimeout, ret, remembered_timer. cbn.
  destruct (clusterSocket (this h)) as [s|]; cbn;
    destruct (_clusterConnectionTimeout (this h)) as [t|]; cbn;
    repeat split; try done; set_solver.
Qed.

Lemma close_timers h :
  let h' := heap (close h) in
  timers h' = timers h /\ next_timer h' = next_timer h
  /\ _clusterConnectionTimeout (this h') = _clusterConnectionTimeout (this h)
  /\ clusterSocket (this h') = clusterSocket (this h)
  /\ outcome (close h) = Normal tt.
Proof.
  unfold close, bind, gets, console, tell, update_socket, modify, ret. cbn.
  by destruct (clusterSocket (this h)) eqn:Hcs.
Qed.

Lemma collector_on_data_timers data h :
  let h' := heap (collector_on_data data h) in
  timers h' = timers h /\ next_timer h' = next_timer h
  /\ _clusterConnectionTimeout (this h') = _clusterConnectionTimeout (this h).
Proof.
  apply (holds_parseSocketData
           (fun h _ h' =>
              timers h' = timers h /\ next_timer h' = next_timer h
              /\ _clusterConnectionTimeout (this h')
                 = _clusterConnectionTimeout (this h))); try done.
  - intros h1 _ h2 _ h3 (-> & -> & ->) (-> & -> & ->). done.
  - intros json h1 _. unfold collector_callback, bind, lift, emit, gets, tell,
      modify. cbn.
    destruct (get_prop json "op") as [op|e]; [|done].
    destruct (get_prop json "data") as [d|e]; [|done]. cbn.
    by destruct (listeners _ _ _).
Qed.

Lemma tracked_after_reconnect h :
  timers_tracked h ->
  timers (heap (reconnectCluster h)) = {[next_timer h]}
  /\ timers_tracked (heap (reconnectCluster h)).
Proof.
  intros [Ht Hfresh].
  destruct (reconnectCluster_timers h) as (Ht' & Hn' & Hf' & _).
  assert (timers (heap (reconnectCluster h)) = {[next_timer h]}) as Hone.
  { rewrite Ht', Ht. set_solver. }
  split; [exact Hone|]. split.
  - unfold remembered_timer. by rewrite Hf'.
  - intros t. rewrite Hone, Hn'. set_solver by lia.
Qed.

Lemma timer_fired_timers t h :
  t ∈ timers h ->
  let h' := heap (collector_handle (TimerFired t) h) in
  timers h' = timers h ∖ {[t]} /\ next_timer h' = next_timer h
  /\ _clusterConnectionTimeout (this h') = None.
Proof.
  intros Hin.
  unfold collector_handle, collector_on_timeout, connectToCluster, bind, gets,
    console, tell, createConnection, modify, ret. cbn.
  destruct (decide (t ∈ timers h)); [|done]. cbn.
  by destruct (clusterSocket (this h)).
Qed.

Lemma tracked_frame h h' :
  timers h' = timers h -> next_timer h' = next_timer h ->
  _clusterConnectionTimeout (this h') = _clusterConnectionTimeout (this h) ->
  timers_tracked h -> timers_tracked h'.
Proof. unfold timers_tracked, remembered_timer. by intros -> -> ->. Qed.

Lemma collector_handle_tracked i :
  holds (fun h _ h' => timers_tracked h -> timers_tracked h')
    (collector_handle i).
Proof.
  intros h Hinv. destruct i; cbn [collector_handle].
  - unfold collector_on_connect, bind, console, tell, gets. cbn.
    by destruct (clusterSocket (this h)).
  - destruct (collector_on_data_timers data h) as (Ht & Hn & Hf).
    by apply (tracked_frame h).
  - unfold collector_on_close, console, tell. rewrite bind_run. cbv beta iota.
    pose proof (tracked_after_reconnect h Hinv) as [_ Hinv'].
    by destruct (reconnectCluster h) as [[t' h'] c].
  - by apply tracked_after_reconnect.
  - destruct (decide (t ∈ timers h)) as [Hin|Hout].
    + destruct (timer_fired_timers t h Hin) as (Ht & Hn & Hf).
      cbn [collector_handle] in Ht, Hn, Hf.
      destruct Hinv as [Hinv Hfresh]. split.
      * unfold remembered_timer in *. rewrite Ht, Hf.
        rewrite Hinv in Hin |- *.
        destruct (_clusterConnectionTimeout (this h)); set_solver.
      * intros t0. rewrite Ht, Hn. intros Ht0. apply Hfresh. set_solver.
    + unfold bind, gets. cbn. by destruct (decide (t ∈ timers h)).
  - destruct (connectToCluster_timers h) as (Ht & Hn & Hf & _).
    by apply (tracked_frame h).
  - by apply tracked_after_reconnect.
  - destruct (close_timers h) as (Ht & Hn & Hf & _).
    by apply (tracked_frame h).
  - done.
Qed.

Lemma constructor_tracked x :
  timers_tracked (heap (constructor (empty_heap x)))
  /\ outcome (constructor (empty_heap x)) = Normal tt.
Proof.
  unfold constructor.
  destruct (influxCollectors config); [|done].
  destruct (api config && negb (collect config)); [done|].
  destruct (negb (api config) && collect config); [|done].
  destruct (connectToCluster_timers (empty_heap x)) as (Ht & Hn & Hf & Ho).
  split; [|exact Ho]. split.
  - unfold remembered_timer. by rewrite Ht, Hf.
  - intros t. rewrite Ht. set_solver.
Qed.

(** The pending timers are tracked in every heap the collector reaches. *)
Lemma reached_tracked inputs x : timers_tracked (reached inputs x).
Proof.
  unfold reached. rewrite bind_run.
  destruct (constructor_tracked x) as [Hinv Ho].
  destruct (constructor (empty_heap x)) as [[t0 h0] c]. cbn in Hinv, Ho.
  subst c.
  pose proof (holds_run (fun h _ h' => timers_tracked h -> timers_tracked h')
                (fun _ Hh => Hh)
                (fun _ _ _ _ _ H12 H23 Hh => H23 (H12 Hh))
                collector_handle collector_handle_tracked inputs h0 Hinv)
    as Hrun.
  by destruct (run collector_handle inputs h0) as [[t1 h1] c1].
Qed.

End Collector.

(** C7. In every heap the collector reaches, whatever the events and calls
    were, the pending timers are exactly the one the service remembers, so
    there is at most one.  A close or an error event then leaves exactly one
    timer pending, the one it has just set (a timer that was pending is
    cleared first), and when a pending timer fires none is pending: one
    reconnection attempt for one timer. *)
Theorem at_most_one_reconnection_timer :
  forall (E : Environment) (inputs : list collector_input) (x : Ext),
    let h := reached inputs x in
    timers h = remembered_timer h
    /\ size (timers h) <= 1
    /\ (forall hadError,
          timers (heap (collector_on_close hadError h)) = {[next_timer h]})
    /\ timers (heap (collector_on_error h)) = {[next_timer h]}
    /\ (forall t, t ∈ timers h ->
          timers (heap (collector_handle (TimerFired t) h)) = ∅).
Proof.
  intros E inputs x h.
  pose proof (reached_tracked inputs x) as Hinv. fold h in Hinv.
  destruct Hinv as [Ht Hfresh].
  split; [exact Ht|]. split; [|split; [|split]].
  - rewrite Ht. unfold remembered_timer.
    destruct (_clusterConnectionTimeout (this h)).
    + rewrite size_singleton. lia.
    + rewrite size_empty. lia.
  - intros hadError. unfold collector_on_close, console, tell.
    rewrite bind_run. cbv beta iota.
    pose proof (tracked_after_reconnect h (conj Ht Hfresh)) as [Hone _].
    by destruct (reconnectCluster h) as [[t' h'] c].
  - apply (tracked_after_reconnect h (conj Ht Hfresh)).
  - intros t Hin. destruct (timer_fired_timers t h Hin) as (Ht' & _ & _).
    rewrite Ht', Ht. rewrite Ht in Hin. unfold remembered_timer in *.
    destruct (_clusterConnectionTimeout (this h)); set_solver.
Qed.

(** An error, then the close event of the same socket before the delay has
    elapsed: the second timer has replaced the first. *)
Lemma at_most_one_reconnection_timer_witness :
  let h := reached (H := collector_node) [Error; Close true] tt in
  timers h = remembered_timer h
  /\ size (timers h) <= 1
  /\ (forall hadError,
        timers (heap (collector_on_close hadError h)) = {[next_timer h]})
  /\ timers (heap (collector_on_error h)) = {[next_timer h]}
  /\ (forall t, t ∈ timers h ->
        timers (heap (collector_handle (TimerFired t) h)) = ∅).
Proof.
  exact (at_most_one_reconnection_timer collector_node [Error; Close true] tt).
Defined.

Example two_failures_one_timer :
  let h := reached (H := collector_node) [Error; Close true] tt in
  timers h = {[1]}
  /\ _clusterConnectionTimeout (this h) = Some 1
  /\ clusterSocket (this h) = None
  /\ timers (heap (collector_handle (TimerFired 0) h)) = {[1]}
  /\ clusterSocket (this (heap (collector_handle (TimerFired 0) h))) = None
  /\ clusterSocket (this (heap (collector_handle (TimerFired 1) h))) = Some 1
  /\ timers (heap (collector_handle (TimerFired 1) h)) = ∅.
Proof. cbv zeta. repeat split; vm_compute; reflexivity. Qed.

(** C8, as the code has it. [reconnectCluster] cancels the timer it
    supersedes: in every heap the collector reaches, a remembered timer is
    not pending after [reconnectCluster], only the new one is.  [close] and
    [connectToCluster] leave the pending timers and the remembered timer as
    they are; [close] only asks the open socket, if there is one, to end. *)
Theorem reconnectCluster_cancels_close_does_not :
  (forall (E : Environment) (inputs : list collector_input) (x : Ext)
          (t : TimerId),
      let h := reached inputs x in
      _clusterConnectionTimeout (this h) = Some t ->
      (t ∉ timers (heap (reconnectCluster h)))
      /\ timers (heap (reconnectCluster h)) = {[next_timer h]})
  /\ (forall (E : Environment) (h : Heap),
        timers (heap (close h)) = timers h
        /\ _clusterConnectionTimeout (this (heap (close h)))
           = _clusterConnectionTimeout (this h)
        /\ clusterSocket (this (heap (close h))) = clusterSocket (this h))
  /\ (forall (E : Environment) (h : Heap),
        timers (heap (connectToCluster h)) = timers h
        /\ _clusterConnectionTimeout (this (heap (connectToCluster h)))
           = _clusterConnectionTimeout (this h)).
Proof.
  split; [|split].
  - intros E inputs x t h Hf.
    pose proof (reached_tracked inputs x) as Hinv. fold h in Hinv.
    pose proof (tracked_after_reconnect h Hinv) as [Hone _].
    split; [|exact Hone]. rewrite Hone.
    destruct Hinv as [Ht Hfresh].
    assert (t ∈ timers h) as Hin.
    { rewrite Ht. unfold remembered_timer. rewrite Hf. set_solver. }
    apply Hfresh in Hin. set_solver by lia.
  - intros E h. by destruct (close_timers h) as (? & ? & ? & ? & ?).
  - intros E h. by destruct (connectToCluster_timers h) as (? & ? & ? & ?).
Qed.

(** A second failure while the timer of the first is pending. *)
Lemma reconnectCluster_cancels_close_does_not_witness :
  let h := reached (H := collector_node) [Error] tt in
  (0 ∉ timers (heap (reconnectCluster h)))
  /\ timers (heap (reconnectCluster h)) = {[next_timer h]}.
Proof.
  apply (proj1 reconnectCluster_cancels_close_does_not collector_node
           [Error] tt 0).
  vm_compute. reflexivity.
Defined.

(** C8 as stated fails. After a failed connection the timer is pending;
    [close()] leaves it pending, and when it fires the collector connects
    again.  And when [close()] ends an open connection, the close event of
    that connection sets the timer, which reconnects as well. *)
Lemma close_leaves_timer_pending :
  (let h := heap (close (reached (H := collector_node) [Error] tt)) in
   timers h = {[0]}
   /\ clusterSocket (this h) = None
   /\ clusterSocket (this (heap (collector_handle (TimerFired 0) h)))
      = Some 1)
  /\ (let h := reached (H := collector_node)
                 [CallClose; CloseEnded; Close false] tt in
      timers h = {[0]}
      /\ clusterSocket (this (heap (collector_handle (TimerFired 0) h)))
         = Some 1).
Proof. cbv zeta. repeat split; vm_compute; reflexivity. Qed.

(** ** Further properties of the codec and of the two callbacks *)

Section Dispatch.

Context `{Environment}.

Lemma collector_callback_trace json h :
  truthy json = true ->
  calls (trace (collector_callback json h)) = []
  /\ emits (trace (collector_callback json h))
     = [(prop json "op", prop json "data")].
Proof.
  intros Hj. unfold collector_callback, bind, lift, emit, gets, tell, modify.
  rewrite !(truthy_get_prop json) by done. cbn.
  by destruct (listeners _ _ _).
Qed.

Lemma forwarded_all_app l1 l2 :
  forwarded_all (l1 ++ l2) = forwarded_all l1 ++ forwarded_all l2.
Proof. unfold forwarded_all. by rewrite fmap_app. Qed.

Lemma connectToCluster_silent h :
  emits (trace (connectToCluster h)) = []
  /\ calls (trace (connectToCluster h)) = [].
Proof.
  unfold connectToCluster, bind, gets, console, tell, createConnection, modify,
    ret. cbn.
  by destruct (clusterSocket (this h)).
Qed.

Lemma reconnectCluster_silent h :
  emits (trace (reconnectCluster h)) = []
  /\ calls (trace (reconnectCluster h)) = [].
Proof.
  unfold reconnectCluster, bind, gets, console, tell, update_socket, modify,
    clearTimeout, setTimeout, ret. cbn.
  destruct (clusterSocket (this h)) as [s|]; cbn;
    by destruct (_clusterConnectionTimeout (this h)).
Qed.

Lemma collector_handle_forwards i :
  holds (fun _ t _ => emits t = forwarded_all (calls t)) (collector_handle i).
Proof.
  destruct i; cbn [collector_handle].
  - intros h. unfold collector_on_connect, bind, console, tell, gets. cbn.
    by destruct (clusterSocket (this h)).
  - apply holds_parseSocketData; try done.
    + intros _ t1 _ t2 _ H1 H2.
      by rewrite emits_app, calls_app, forwarded_all_app, H1, H2.
    + intros json h Hj.
      destruct (collector_callback_trace json h Hj) as [Hc He].
      cbn [emits calls]. by rewrite Hc, He.
  - intros h. unfold collector_on_close, console, tell. rewrite bind_run.
    cbv beta iota. destruct (reconnectCluster_silent h) as [He Hc].
    destruct (reconnectCluster h) as [[t' h'] c].
    unfold trace in *. cbn in *. rewrite He, Hc; reflexivity.
  - intros h. unfold collector_on_error.
    destruct (reconnectCluster_silent h) as [He Hc]. rewrite He, Hc; reflexivity.
  - intros h.
    unfold collector_on_timeout, connectToCluster, bind, gets, console, tell,
      createConnection, modify, ret. cbn.
    destruct (decide (t ∈ timers h)); [|done]. cbn.
    by destruct (clusterSocket (this h)).
  - intros h. destruct (connectToCluster_silent h) as [He Hc].
    rewrite He, Hc; reflexivity.
  - intros h. destruct (reconnectCluster_silent h) as [He Hc].
    rewrite He, Hc; reflexivity.
  - intros h. unfold close, bind, gets, console, tell, update_socket, modify.
    cbn. by destruct (clusterSocket (this h)).
  - intros h. reflexivity.
Qed.

End Dispatch.

(** X1. In every run of the collector node, from any heap, the events given
    to [this.emit] are exactly the decoded messages, each once, in their
    order and with its own [op] and [data]: unlike the cluster node, the
    collector forwards a message whose [op] is ["welcome"] as well. *)
Theorem collector_emits_every_message :
  forall (E : Environment) (inputs : list collector_input) (h : Heap),
    emits (trace (run collector_handle inputs h))
    = forwarded_all (calls (trace (run collector_handle inputs h))).
Proof.
  intros E inputs h.
  apply (holds_run (fun _ t _ => emits t = forwarded_all (calls t))); try done.
  - intros _ t1 _ t2 _ H1 H2.
    by rewrite emits_app, calls_app, forwarded_all_app, H1, H2.
  - apply collector_handle_forwards.
Qed.

Section Falsy.

Context `{Environment}.

Lemma Forall_truthy_app (l1 l2 : list jsval) :
  Forall (fun json => truthy json = true) l1 ->
  Forall (fun json => truthy json = true) l2 ->
  Forall (fun json => truthy json = true) (l1 ++ l2).
Proof. intros H1 H2. by apply Forall_app. Qed.

End Falsy.

(** X2. The callback is only ever given values that are true in a
    condition: when a frame parses to [null], [false], [0] or the empty
    string, the iteration prints nothing, calls nothing and empties the
    buffer, so the frame is dropped without a trace; and whatever the chunk,
    every message [parseSocketData] hands to a callback (that calls no
    callback itself) is truthy. *)
Theorem parseSocketData_drops_falsy_frames :
  (forall (E : Environment) (callback : jsval -> M unit)
          (chunks : list string) (incompleteData : bool) (i : nat)
          (chunk : string) (h : Heap) (json : jsval),
      chunk <> "" ->
      (i =? length chunks - 1) && incompleteData = false ->
      JSON_parse (pendingSocketData (this h) +:+ chunk) = Normal json ->
      truthy json = false ->
      parseSocketData_body callback chunks incompleteData i chunk h
      = ([], flushed (appended chunk h), Normal tt))
  /\ (forall (E : Environment) (callback : jsval -> M unit) (data : Buffer)
             (h : Heap),
        (forall json h', calls (trace (callback json h')) = []) ->
        Forall (fun json => truthy json = true)
          (calls (trace (parseSocketData callback data h)))).
Proof.
  split.
  - intros E callback chunks incompleteData i chunk h json Hne Htail Hp Hj.
    rewrite parseSocketData_body_run, body_result_complete by assumption.
    by rewrite Hp, Hj.
  - intros E callback data h Hcb.
    apply (holds_parseSocketData
             (fun _ t _ => Forall (fun json => truthy json = true) (calls t)));
      try (intros; by constructor).
    + intros _ t1 _ t2 _ H1 H2. rewrite calls_app. by apply Forall_app.
    + intros json h' Hj. cbn [calls]. rewrite Hcb. by constructor.
Qed.

(** The frames [null], [0] and [false], and a message, in one chunk. *)
Lemma parseSocketData_drops_falsy_frames_witness :
  parseSocketData_body (H := cluster_node) (cluster_callback 0)
    ["null"; "0"; ""] false 0 "null" (empty_heap (H := cluster_node) tt)
  = ([], flushed (appended "null" (empty_heap (H := cluster_node) tt)),
     Normal tt)
  /\ Forall (fun json => truthy json = true)
       (calls (trace (parseSocketData (H := cluster_node) (cluster_callback 0)
                        (Json.bytes "null#0#false#{'op':'a','data':0}#")
                        (empty_heap (H := cluster_node) tt)))).
Proof.
  split.
  - apply (proj1 parseSocketData_drops_falsy_frames cluster_node
             (cluster_callback 0) ["null"; "0"; ""] false 0 "null"
             (empty_heap (H := cluster_node) tt) JNull);
      [discriminate|reflexivity|reflexivity|reflexivity].
  - apply (proj2 parseSocketData_drops_falsy_frames cluster_node
             (cluster_callback 0)
             (Json.bytes "null#0#false#{'op':'a','data':0}#")
             (empty_heap (H := cluster_node) tt)).
    intros json h'. rewrite cluster_callback_run.
    unfold cluster_callback_result.
    destruct (get_prop json "op") as [op|e]; [|reflexivity].
    destruct (strict_eq_str op "welcome").
    + destruct (get_prop json "data") as [d|e]; [|reflexivity].
      destruct (get_prop d "markets") as [markets0|e];
        [|by destruct (get_prop d "indexes")].
      destruct (get_prop d "indexes") as [indexes0|e]; [|reflexivity].
      by destruct (join indexes0 ", ").
    + destruct (get_prop json "data") as [d|e]; [|reflexivity].
      by destruct (@listeners cluster_node op d (ext h')).
Defined.

Example falsy_frames_leave_no_trace :
  trace (parseSocketData (H := cluster_node) (cluster_callback 0)
           (Json.bytes "null#0#false#{'op':'a','data':0}#")
           (empty_heap (H := cluster_node) tt))
  = [Callback (JObj [("op", JStr "a"); ("data", JNum 0)]);
     Emit (JStr "a") (JNum 0)].
Proof. reflexivity. Qed.

Section Handshake.

Context `{Environment}.

Lemma not_array_join v sep :
  is_array v = false -> exists e, join v sep = Throw (TypeError e).
Proof. destruct v; try discriminate; intros _; by eexists. Qed.

End Handshake.



(** ** The connections of the collector *)

Section Connections.

Context `{Environment}.

Lemma connectToCluster_sockets h :
  let h' := heap (connectToCluster h) in
  match clusterSocket (this h) with
  | Some _ => h' = h
  | None =>
      clusterSocket (this h') = Some (next_socket h)
      /\ next_socket h' = S (next_socket h)
      /\ pendingSocketData (this h') = ""
      /\ socket_of h' (next_socket h) = new_socket
      /\ forall s, s <> next_socket h -> socket_of h' s = socket_of h s
  end.
Proof.
  unfold connectToCluster, bind, gets, console, tell, createConnection, modify,
    ret. cbn.
  destruct (clusterSocket (this h)); cbn; [done|].
  repeat split.
  - unfold socket_of; cbn. by rewrite lookup_insert_eq.
  - intros s Hs. unfold socket_of; cbn. by rewrite lookup_insert_ne.
Qed.

Lemma reconnectCluster_sockets h :
  let h' := heap (reconnectCluster h) in
  clusterSocket (this h') = None
  /\ next_socket h' = next_socket h
  /\ pendingSocketData (this h') = pendingSocketData (this h)
  /\ (forall s, clusterSocket (this h) = Some s ->
        destroyed (socket_of h' s) = true)
  /\ (forall s, destroyed (socket_of h s) = true ->
        destroyed (socket_of h' s) = true).
Proof.
  unfold reconnectCluster, bind, gets, console, tell, update_socket, modify,
    clearTimeout, setTimeout, ret. cbn.
  destruct (clusterSocket (this h)) as [s0|] eqn:Hcs; cbn;
    destruct (_clusterConnectionTimeout (this h)) as [t|]; cbn;
    repeat split; try done.
  all: try (intros s [= <-]; unfold socket_of, updated; cbn;
            by rewrite lookup_insert_eq).
  all: intros s Hs; unfold socket_of, updated; cbn;
    (destruct (decide (s0 = s)) as [->|Hne];
     [by rewrite lookup_insert_eq|by rewrite lookup_insert_ne]).
Qed.

Lemma collector_on_data_sockets data h :
  let h' := heap (collector_on_data data h) in
  sockets h' = sockets h /\ next_socket h' = next_socket h
  /\ clusterSocket (this h') = clusterSocket (this h).
Proof.
  apply (holds_parseSocketData
           (fun h _ h' =>
              sockets h' = sockets h /\ next_socket h' = next_socket h
              /\ clusterSocket (this h') = clusterSocket (this h))); try done.
  - intros h1 _ h2 _ h3 (-> & -> & ->) (-> & -> & ->). done.
  - intros json h1 _. unfold collector_callback, bind, lift, emit, gets, tell,
      modify. cbn.
    destruct (get_prop json "op") as [op|e]; [|done].
    destruct (get_prop json "data") as [d|e]; [|done]. cbn.
    by destruct (listeners _ _ _).
Qed.

Lemma others_destroyed_frame h h' :
  sockets h' = sockets h -> next_socket h' = next_socket h ->
  clusterSocket (this h') = clusterSocket (this h) ->
  others_destroyed h -> others_destroyed h'.
Proof.
  unfold others_destroyed, socket_of. by intros -> -> ->.
Qed.

Lemma others_destroyed_connect h :
  others_destroyed h -> others_destroyed (heap (connectToCluster h)).
Proof.
  intros [Hcur Hold]. pose proof (connectToCluster_sockets h) as Hc.
  cbn zeta in Hc.
  destruct (clusterSocket (this h)) as [s0|] eqn:Hcs.
  - rewrite Hc. split; [by rewrite Hcs|]. by rewrite Hcs.
  - destruct Hc as (Hcs' & Hn & _ & _ & Hother).
    split; rewrite Hcs', Hn.
    + intros s [= <-]. lia.
    + intros s Hs Hne.
      assert (s <> next_socket h) as Hne' by (intros ->; by apply Hne).
      rewrite (Hother s Hne'). apply Hold; [lia|done].
Qed.

Lemma others_destroyed_reconnect h :
  others_destroyed h -> others_destroyed (heap (reconnectCluster h)).
Proof.
  intros [Hcur Hold].
  destruct (reconnectCluster_sockets h) as (Hcs & Hn & _ & Hd & Hkeep).
  split; rewrite Hcs, Hn; [done|].
  intros s Hs _.
  destruct (decide (clusterSocket (this h) = Some s)) as [Heq|Hne].
  - by apply Hd.
  - by apply Hkeep, Hold.
Qed.

Lemma collector_handle_others_destroyed i :
  holds (fun h _ h' => others_destroyed h -> others_destroyed h')
    (collector_handle i).
Proof.
  intros h Hinv. destruct i; cbn [collector_handle].
  - unfold collector_on_connect, bind, console, tell, gets. cbn.
    by destruct (clusterSocket (this h)).
  - destruct (collector_on_data_sockets data h) as (Hs & Hn & Hc).
    by apply (others_destroyed_frame h).
  - unfold collector_on_close, console, tell. rewrite bind_run. cbv beta iota.
    pose proof (others_destroyed_reconnect h Hinv) as Hinv'.
    by destruct (reconnectCluster h) as [[t' h'] c].
  - by apply others_destroyed_reconnect.
  - unfold bind at 1, gets at 1. cbv beta iota.
    destruct (decide (t ∈ timers h)); [|exact Hinv].
    unfold collector_on_timeout, modify. rewrite !bind_run. cbv beta iota.
    set (h1 := with_this _ _).
    assert (others_destroyed h1) as Hinv1 by exact Hinv.
    pose proof (others_destroyed_connect h1 Hinv1) as Hinv'.
    by destruct (connectToCluster h1) as [[t' h'] c].
  - by apply others_destroyed_connect.
  - by apply others_destroyed_reconnect.
  - unfold close, bind, gets, console, tell, update_socket, modify, ret. cbn.
    destruct (clusterSocket (this h)) as [s0|] eqn:Hcs; [|exact Hinv]. cbn.
    destruct Hinv as [Hcur Hold]. split; cbn; [done|].
    intros s Hs Hne. unfold socket_of, updated; cbn.
    destruct (decide (s0 = s)) as [->|Hne']; [by rewrite Hcs in Hne|].
    rewrite lookup_insert_ne by done. by apply Hold.
  - exact Hinv.
Qed.

Lemma reached_others_destroyed inputs x : others_destroyed (reached inputs x).
Proof.
  unfold reached. rewrite bind_run.
  assert (others_destroyed (heap (constructor (empty_heap x)))
          /\ outcome (constructor (empty_heap x)) = Normal tt) as [Hinv Ho].
  { assert (others_destroyed (empty_heap x)) as H0.
    { split; [done|]. cbn. intros s Hs. lia. }
    unfold constructor.
    destruct (influxCollectors config); [|done].
    destruct (api config && negb (collect config)); [done|].
    destruct (negb (api config) && collect config); [|done].
    split; [by apply others_destroyed_connect|].
    by destruct (connectToCluster_timers (empty_heap x)) as (_ & _ & _ & Ho). }
  destruct (constructor (empty_heap x)) as [[t0 h0] c]. cbn in Hinv, Ho.
  subst c.
  pose proof (holds_run
                (fun h _ h' => others_destroyed h -> others_destroyed h')
                (fun _ Hh => Hh)
                (fun _ _ _ _ _ H12 H23 Hh => H23 (H12 Hh))
                collector_handle collector_handle_others_destroyed inputs h0
                Hinv) as Hrun.
  by destruct (run collector_handle inputs h0) as [[t1 h1] c1].
Qed.

Lemma run_single {I} (handle : I -> M unit) i h :
  heap (run handle [i] h) = heap (handle i h).
Proof.
  cbn [run]. rewrite bind_run.
  by destruct (handle i h) as [[t1 h1] [[]|e]].
Qed.

Lemma collector_on_close_heap hadError h :
  heap (collector_handle (Close hadError) h) = heap (reconnectCluster h).
Proof.
  cbn [collector_handle]. unfold collector_on_close, console, tell.
  rewrite bind_run. cbv beta iota.
  by destruct (reconnectCluster h) as [[t' h'] c].
Qed.

Lemma returns_collector_on_close hadError :
  returns (collector_handle (Close hadError)).
Proof.
  intros h. exists tt. cbn [collector_handle].
  unfold collector_on_close, console, tell. rewrite bind_run. cbv beta iota.
  destruct (reconnectCluster_timers h) as (_ & _ & _ & Ho).
  by destruct (reconnectCluster h) as [[t' h'] c].
Qed.

Lemma timer_fired_heap t h :
  t ∈ timers h ->
  heap (collector_handle (TimerFired t) h)
  = heap (connectToCluster
            (with_this (set_clusterConnectionTimeout None)
               (with_timers (fun ts => ts ∖ {[t]}) h))).
Proof.
  intros Hin.
  unfold collector_handle, collector_on_timeout, connectToCluster, bind, gets,
    console, tell, createConnection, modify, ret. cbn.
  destruct (decide (t ∈ timers h)); [|done]. cbn.
  by destruct (clusterSocket (this h)).
Qed.

End Connections.

(** X4. The collector has at most one live connection.  In every heap it
    reaches, whatever the events and the calls were, every socket it has
    created is destroyed, except the one in [clusterSocket], if there is
    one. *)
Theorem collector_has_one_live_socket :
  forall (E : Environment) (inputs : list collector_input) (x : Ext)
         (s : SocketId),
    let h := reached inputs x in
    s < next_socket h ->
    clusterSocket (this h) <> Some s ->
    destroyed (socket_of h s) = true.
Proof.
  intros E inputs x s h.
  destruct (reached_others_destroyed inputs x) as [_ Hold]. apply Hold.
Qed.

(** Two failures and two reconnections: sockets [0] and [1] are gone,
    socket [2] is the connection. *)
Lemma collector_has_one_live_socket_witness :
  let h := reached (H := collector_node)
             [Error; TimerFired 0; Close true; TimerFired 1] tt in
  destroyed (socket_of h 1) = true.
Proof.
  apply (collector_has_one_live_socket collector_node
           [Error; TimerFired 0; Close true; TimerFired 1] tt 1).
  - vm_compute. lia.
  - vm_compute. discriminate.
Defined.

(** X5. After a close event the collector reconnects when the timer it has
    set fires: from any heap, the socket it held is destroyed, the new
    connection is a socket that did not exist, the buffer is empty (nothing
    of the lost connection is carried over) and no timer is remembered. *)
Theorem collector_reconnects_with_empty_buffer :
  forall (E : Environment) (hadError : bool) (h : Heap),
    let h' := heap (run collector_handle
                      [Close hadError; TimerFired (next_timer h)] h) in
    clusterSocket (this h') = Some (next_socket h)
    /\ socket_of h' (next_socket h) = new_socket
    /\ next_socket h' = S (next_socket h)
    /\ pendingSocketData (this h') = ""
    /\ _clusterConnectionTimeout (this h') = None
    /\ (forall s, clusterSocket (this h) = Some s -> s <> next_socket h ->
          destroyed (socket_of h' s) = true).
Proof.
  intros E hadError h h'. subst h'.
  rewrite run_cons by apply returns_collector_on_close.
  rewrite run_single, collector_on_close_heap.
  destruct (reconnectCluster_sockets h) as (Hcs & Hn & _ & Hd & _).
  destruct (reconnectCluster_timers h) as (Ht & _ & _ & _).
  set (h1 := heap (reconnectCluster h)) in *.
  rewrite timer_fired_heap by (rewrite Ht; set_solver).
  set (h2 := with_this _ (with_timers _ h1)).
  pose proof (connectToCluster_sockets h2) as Hc.
  pose proof (connectToCluster_timers h2) as (_ & _ & Hf2 & _).
  cbn zeta in Hc.
  assert (clusterSocket (this h2) = None) as Hcs2 by exact Hcs.
  assert (next_socket h2 = next_socket h) as Hn2 by exact Hn.
  rewrite Hcs2, Hn2 in Hc. destruct Hc as (Hc1 & Hc2 & Hc3 & Hc4 & Hc5).
  repeat split; try done.
  intros s Hs Hne. rewrite (Hc5 s Hne). by apply Hd.
Qed.

(** ** Routing after the registry has changed *)

Section RoutingChanges.

Context `{Environment}.

Lemma getNodeByMarket_run market h :
  well_formed_registry h = true ->
  getNodeByMarket market h
  = ([], h, Normal (List.find (owns h market) (clusteredCollectors (this h)))).
Proof.
  intros Hwf. unfold getNodeByMarket, bind, gets; cbn.
  by rewrite (getNodeByMarket_loop_run market _ h Hwf).
Qed.

Lemma forallb_without_first (f : SocketId -> bool) l x :
  forallb f l = true -> forallb f (without_first l x) = true.
Proof.
  induction l as [|a l IH]; [done|]. rewrite without_first_cons. cbn.
  intros [Ha Hl]%andb_true_iff.
  destruct (a =? x); [done|]. cbn. by rewrite Ha, IH.
Qed.

Lemma find_without_first (f : SocketId -> bool) l x :
  f x = false -> List.find f (without_first l x) = List.find f l.
Proof.
  intros Hx. induction l as [|a l IH]; [done|]. rewrite without_first_cons.
  destruct (a =? x) eqn:Hax.
  - apply Nat.eqb_eq in Hax. subst a. cbn. by rewrite Hx.
  - cbn. by rewrite IH.
Qed.

Lemma find_ext_in {A} (f g : A -> bool) (l : list A) :
  (forall a, In a l -> f a = g a) -> List.find f l = List.find g l.
Proof.
  induction l as [|a l IH]; [done|]. intros Hfg. cbn.
  rewrite (Hfg a) by (by left). destruct (g a); [done|].
  apply IH. intros b Hb. apply Hfg. by right.
Qed.

Lemma forallb_ext_in {A} (f g : A -> bool) (l : list A) :
  (forall a, In a l -> f a = g a) -> forallb f l = forallb g l.
Proof.
  induction l as [|a l IH]; [done|]. intros Hfg. cbn.
  rewrite (Hfg a) by (by left). f_equal.
  apply IH. intros b Hb. apply Hfg. by right.
Qed.


Lemma cluster_on_end_sockets socket h s :
  markets (socket_of (heap (cluster_on_end socket h)) s)
  = markets (socket_of h s)
  /\ indexes (socket_of (heap (cluster_on_end socket h)) s)
     = indexes (socket_of h s).
Proof.
  rewrite cluster_on_end_run. unfold heap. cbn [fst snd].
  destruct (decide (socket = s)) as [->|Hne].
  - by rewrite socket_of_updated.
  - by rewrite socket_of_updated_ne.
Qed.

End RoutingChanges.

(** X6. After the peer of a connection has ended it, lookups go on as
    before for everybody else.  On a registry whose records hold arrays and
    where the socket is recorded at most once, [getNodeByMarket] after the
    end event never returns the socket, and for an identifier the socket
    did not own it returns what it returned before. *)
Theorem getNodeByMarket_after_end :
  forall (E : Environment) (socket : SocketId) (market : string) (h : Heap),
    well_formed_registry h = true ->
    count_occ Nat.eq_dec (clusteredCollectors (this h)) socket <= 1 ->
    let h' := heap (cluster_on_end socket h) in
    exists result,
      getNodeByMarket market h' = ([], h', Normal result)
      /\ result <> Some socket
      /\ destroyed (socket_of h' socket) = true
      /\ (owns h market socket = false ->
          getNodeByMarket market h = ([], h, Normal result)).
Proof.
  intros E socket market h Hwf Hcount h'.
  assert (clusteredCollectors (this h')
          = without_first (clusteredCollectors (this h)) socket) as Hreg.
  { subst h'. by rewrite cluster_on_end_run. }
  assert (forall s, owns h' market s = owns h market s) as Howns.
  { intros s. unfold owns. subst h'.
    by destruct (cluster_on_end_sockets socket h s) as [-> ->]. }
  assert (well_formed_registry h' = true) as Hwf'.
  { unfold well_formed_registry in *. rewrite Hreg.
    apply forallb_without_first.
    rewrite <- Hwf. apply forallb_ext_in. intros s _. subst h'.
    by destruct (cluster_on_end_sockets socket h s) as [-> ->]. }
  exists (List.find (owns h' market) (clusteredCollectors (this h'))).
  split; [by apply getNodeByMarket_run|]. split; [|split].
  - intros Hfind. apply List.find_some in Hfind as [Hin _].
    rewrite Hreg in Hin.
    apply (count_occ_In Nat.eq_dec) in Hin.
    rewrite count_occ_without_first in Hin.
    destruct (decide (socket = socket)); [lia|done].
  - subst h'. rewrite cluster_on_end_run. unfold heap. cbn [fst snd].
    by rewrite socket_of_updated.
  - intros Hnot. rewrite (getNodeByMarket_run market h Hwf). do 2 f_equal.
    rewrite Hreg.
    rewrite (find_ext_in (owns h' market) (owns h market))
      by (intros; apply Howns).
    symmetry. by apply find_without_first.
Qed.

(** The first of [two_collectors] ends: its market goes to the second. *)
Lemma getNodeByMarket_after_end_witness :
  let h' := heap (cluster_on_end 0 two_collectors) in
  exists result,
    getNodeByMarket "BITMEX:XBTUSD" h' = ([], h', Normal result)
    /\ result <> Some 0
    /\ destroyed (socket_of h' 0) = true
    /\ (owns two_collectors "BITMEX:XBTUSD" 0 = false ->
        getNodeByMarket "BITMEX:XBTUSD" two_collectors
        = ([], two_collectors, Normal result)).
Proof.
  apply (getNodeByMarket_after_end cluster_node 0 "BITMEX:XBTUSD"
           two_collectors).
  - vm_compute. reflexivity.
  - vm_compute. lia.
Defined.

Example lookups_after_end :
  let h' := heap (cluster_on_end 0 two_collectors) in
  outcome (getNodeByMarket "BITMEX:XBTUSD" h') = Normal (Some 1)
  /\ outcome (getNodeByMarket "BTCUSD" h') = Normal (Some 1)
  /\ outcome (getNodeByMarket "COINBASE:BTC-USD" h') = Normal (Some 1)
  /\ outcome (getNodeByMarket "ETHUSD" h') = Normal (Some 1).
Proof. cbv zeta. repeat split; vm_compute; reflexivity. Qed.



Example lookups_after_handshake :
  let data :=
    JObj [("op", JStr "welcome");
          ("data", JObj [("markets", JArr [JStr "KRAKEN:XBTUSD";
                                           JStr "BITMEX:XBTUSD"]);
                         ("indexes", JArr [])])] in
  let h' := heap (cluster_callback (H := cluster_node) 2 data two_collectors) in
  outcome (getNodeByMarket "KRAKEN:XBTUSD" h') = Normal (Some 2)
  /\ outcome (getNodeByMarket "BITMEX:XBTUSD" h') = Normal (Some 0).
Proof. cbv zeta. repeat split; vm_compute; reflexivity. Qed.

(** ** Texts, segments and the loop *)

Section Texts.

Lemma string_app_cons c (a b : string) :
  String c a +:+ b = String c (a +:+ b).
Proof. reflexivity. Qed.

Lemma string_app_nil_l (s : string) : "" +:+ s = s.
Proof. reflexivity. Qed.

Lemma string_app_nil_r (s : string) : s +:+ "" = s.
Proof.
  induction s as [|c s IH]; [done|]. by rewrite string_app_cons, IH.
Qed.

Lemma string_app_assoc (a b c : string) : (a +:+ b) +:+ c = a +:+ (b +:+ c).
Proof.
  induction a as [|x a IH]; [done|]. by rewrite !string_app_cons, IH.
Qed.

Lemma prefix_delimiter c s : String.prefix "#" (String c s) = Ascii.eqb c "#".
Proof.
  change (String.prefix "#" (String c s))
    with (match ascii_dec "#" c with
          | left _ => String.prefix "" s
          | right _ => false
          end).
  destruct (ascii_dec "#" c) as [<-|Hne]; [by destruct s|].
  symmetry. apply Ascii.eqb_neq. by intros ->.
Qed.

Lemma has_indexOf_cons c s :
  has_indexOf (String c s) "#" = Ascii.eqb c "#" || has_indexOf s "#".
Proof.
  unfold has_indexOf.
  change (index 0 "#" (String c s))
    with (if String.prefix "#" (String c s) then Some 0
          else match index 0 "#" s with
               | Some n => Some (S n)
               | None => None
               end).
  rewrite prefix_delimiter.
  destruct (Ascii.eqb c "#"); [done|]. by destruct (index 0 "#" s).
Qed.

Lemma split_not_nil sep s : split sep s <> [].
Proof.
  destruct s as [|c s]; cbn; [done|].
  destruct (Ascii.eqb c sep); [done|]. by destruct (split sep s).
Qed.

Lemma split_no_delimiter s :
  has_indexOf s "#" = false -> split "#" s = [s].
Proof.
  induction s as [|c s IH]; [done|]. rewrite has_indexOf_cons.
  intros [Hc Hs]%orb_false_iff. cbn. rewrite Hc, (IH Hs). done.
Qed.

Lemma split_singleton s x :
  split "#" s = [x] -> x = s /\ has_indexOf s "#" = false.
Proof.
  revert x. induction s as [|c s IH]; intros x; cbn [split].
  - by intros [= <-].
  - rewrite has_indexOf_cons. destruct (Ascii.eqb c "#").
    + intros [= _ Hs]. by destruct (split_not_nil "#" s).
    + destruct (split "#" s) as [|seg segs] eqn:Hsplit;
        [by destruct (split_not_nil _ _ Hsplit)|].
      intros [= <- ->]. destruct (IH seg eq_refl) as [-> ->]. done.
Qed.

Lemma split_app a b :
  split "#" (a +:+ b)
  = glue (split "#" a) (hd "" (split "#" b)) (tl (split "#" b)).
Proof.
  induction a as [|c a IH].
  - rewrite string_app_nil_l. cbn.
    by destruct (split "#" b) eqn:Hb; [destruct (split_not_nil "#" b)|].
  - rewrite string_app_cons. cbn [split]. rewrite IH.
    destruct (Ascii.eqb c "#").
    + cbn. destruct (split "#" a) eqn:Ha; [by destruct (split_not_nil "#" a)|].
      done.
    + destruct (split "#" a) as [|seg segs] eqn:Ha;
        [by destruct (split_not_nil "#" a)|].
      cbn. by destruct segs.
Qed.

Lemma char_at_last c s :
  char_at (String c s) (Z.of_nat (String.length (String c s)) - 1)
  = match s with
    | EmptyString => Some c
    | _ => char_at s (Z.of_nat (String.length s) - 1)
    end.
Proof.
  unfold char_at. cbn [String.length].
  replace (Z.of_nat (S (String.length s)) - 1)%Z
    with (Z.of_nat (String.length s)) by lia.
  destruct s as [|c' s]; [done|].
  cbn [String.length].
  replace (Z.of_nat (S (String.length s)) - 1)%Z
    with (Z.of_nat (String.length s)) by lia.
  destruct (Z.ltb_spec (Z.of_nat (S (String.length s))) 0); [lia|].
  destruct (Z.ltb_spec (Z.of_nat (String.length s)) 0); [lia|].
  rewrite !Nat2Z.id. done.
Qed.

Lemma incomplete_ends s : incomplete s = negb (ends_with_delimiter s).
Proof.
  unfold incomplete. f_equal.
  induction s as [|c s IH]; [done|].
  rewrite char_at_last. destruct s as [|c' s]; [|exact IH].
  cbn. destruct (Ascii.eqb_spec c "#") as [->|Hne].
  - by apply bool_decide_eq_true.
  - apply bool_decide_eq_false. by intros [= ->].
Qed.

Lemma ends_with_delimiter_last s :
  ends_with_delimiter s = true -> List.last (split "#" s) "" = "".
Proof.
  induction s as [|c s IH]; [done|]. cbn [ends_with_delimiter].
  destruct s as [|c' s0] eqn:Es.
  - intros Hc. cbn [split]. by rewrite Hc.
  - rewrite <- Es in *. intros Hs. specialize (IH Hs). cbn [split].
    destruct (split "#" s) as [|seg segs] eqn:Hsplit;
      [by destruct (split_not_nil _ _ Hsplit)|].
    destruct (Ascii.eqb c "#"); [exact IH|].
    destruct segs as [|seg' segs]; [|exact IH].
    cbn in IH. subst seg. destruct (split_singleton _ _ Hsplit) as [Hs' _].
    by rewrite <- Hs' in Es.
Qed.

Lemma open_tail_incomplete s :
  List.last (split "#" s) "" <> "" -> incomplete s = true.
Proof.
  intros Hlast. rewrite incomplete_ends.
  destruct (ends_with_delimiter s) eqn:He; [|done].
  by apply ends_with_delimiter_last in He.
Qed.

Lemma ends_with_delimiter_app a b :
  b <> "" -> ends_with_delimiter (a +:+ b) = ends_with_delimiter b.
Proof.
  intros Hb. induction a as [|c a IH]; [done|].
  rewrite string_app_cons. cbn [ends_with_delimiter].
  destruct (a +:+ b) eqn:Hab; [|exact IH].
  destruct a; [done|discriminate].
Qed.

Lemma incomplete_app a b : b <> "" -> incomplete (a +:+ b) = incomplete b.
Proof. intros Hb. by rewrite !incomplete_ends, ends_with_delimiter_app. Qed.

Lemma starts_with_delimiter_split b :
  starts_with_delimiter b = true <->
  hd "" (split "#" b) = "" /\ tl (split "#" b) <> [].
Proof.
  destruct b as [|c b]; cbn.
  - split; [done|]. by intros [_ []].
  - destruct (Ascii.eqb c "#"); cbn.
    + split; [|done]. intros _. split; [done|]. apply split_not_nil.
    + destruct (split "#" b); cbn; split; try done; by intros [[=] _].
Qed.

Lemma ends_inside_frame_last a :
  ends_inside_frame a = true -> List.last (split "#" a) "" <> "".
Proof.
  unfold ends_inside_frame.
  intros [Ha He]%andb_true_iff.
  apply negb_true_iff in Ha, He.
  apply String.eqb_neq in Ha. revert Ha He.
  induction a as [|c a IH]; [done|]. intros _ He. cbn [split].
  cbn [ends_with_delimiter] in He.
  destruct a as [|c' a0] eqn:Ea.
  - cbn. by rewrite He.
  - rewrite <- Ea in *.
    assert (a <> "") as Hne by (by rewrite Ea).
    specialize (IH Hne He).
    destruct (split "#" a) as [|seg segs] eqn:Hsplit;
      [by destruct (split_not_nil _ _ Hsplit)|].
    destruct (Ascii.eqb c "#"); [exact IH|].
    destruct segs as [|seg' segs]; [done|exact IH].
Qed.

Lemma last_ends_inside_frame a :
  List.last (split "#" a) "" <> "" -> ends_inside_frame a = true.
Proof.
  intros Hlast. apply andb_true_iff. split.
  - apply negb_true_iff, String.eqb_neq. by intros ->.
  - apply negb_true_iff.
    destruct (ends_with_delimiter a) eqn:He; [|done].
    by apply ends_with_delimiter_last in He.
Qed.

End Texts.

Section Loop.

Context `{Environment}.

Lemma bind_assoc {A B C} (m : M A) (k : A -> M B) (k' : B -> M C) h :
  bind (bind m k) k' h = bind m (fun a => bind (k a) k') h.
Proof.
  rewrite !bind_run. destruct (m h) as [[t1 h1] [a|e]]; [|done].
  rewrite bind_run. destruct (k a h1) as [[t2 h2] [b|e]]; [|done].
  destruct (k' b h2) as [[t3 h3] c]. by rewrite app_assoc.
Qed.

Lemma bind_ext {A B} (m m' : M A) (k k' : A -> M B) h :
  m h = m' h -> (forall a h', k a h' = k' a h') -> bind m k h = bind m' k' h.
Proof.
  intros Hm Hk. rewrite !bind_run, Hm.
  destruct (m' h) as [[t1 h1] [a|e]]; [|done]. by rewrite Hk.
Qed.

Lemma bind_ret_r (m : M unit) h : bind m (fun _ => ret tt) h = m h.
Proof.
  rewrite bind_run. destruct (m h) as [[t1 h1] [[]|e]]; [|done].
  cbn. by rewrite app_nil_r.
Qed.

Lemma appended_nil h : appended "" h = h.
Proof.
  destruct h as [[cs ss cc p ct] so ti ns nt x].
  unfold appended, with_this, set_pendingSocketData. cbn.
  by rewrite string_app_nil_r.
Qed.

Lemma appended_appended a b h : appended b (appended a h) = appended (a +:+ b) h.
Proof.
  unfold appended, with_this, set_pendingSocketData. cbn.
  by rewrite string_app_assoc.
Qed.

Lemma step_run callback tail chunk h :
  step callback tail chunk h = body_result callback [] tail 0 chunk h.
Proof. apply parseSocketData_body_run. Qed.

Lemma body_step callback chunks incompleteData i chunk h :
  parseSocketData_body callback chunks incompleteData i chunk h
  = step callback ((i =? length chunks - 1) && incompleteData) chunk h.
Proof.
  rewrite step_run, parseSocketData_body_run. unfold body_result. cbn.
  by destruct ((i =? length chunks - 1) && incompleteData).
Qed.

Lemma step_empty callback tail h : step callback tail "" h = ([], h, Normal tt).
Proof. by rewrite step_run. Qed.

Lemma step_tail callback chunk h :
  chunk <> "" -> step callback true chunk h = ([], appended chunk h, Normal tt).
Proof.
  intros Hne. rewrite step_run. unfold body_result.
  destruct (String.length chunk =? 0) eqn:Hlen; [|done].
  by apply length_zero in Hlen.
Qed.

Lemma step_appended callback tail a b h :
  b <> "" ->
  step callback tail b (appended a h) = step callback tail (a +:+ b) h.
Proof.
  intros Hb. rewrite !step_run. unfold body_result.
  assert (a +:+ b <> "") as Hab.
  { destruct a; [done|discriminate]. }
  destruct (String.length b =? 0) eqn:Hlb; [by apply length_zero in Hlb|].
  destruct (String.length (a +:+ b) =? 0) eqn:Hlab;
    [by apply length_zero in Hlab|].
  by rewrite appended_appended.
Qed.

Lemma for_each_loop callback chunks incompleteData l : forall i h,
  i + length l = length chunks ->
  for_each (parseSocketData_body callback chunks incompleteData) i l h
  = loop callback incompleteData l h.
Proof.
  induction l as [|x l IH]; intros i h Hlen; [done|].
  cbn [for_each loop]. apply bind_ext.
  - rewrite body_step. do 2 f_equal. cbn [length] in Hlen.
    destruct l as [|y l]; cbn [length] in *.
    + apply Nat.eqb_eq. lia.
    + apply Nat.eqb_neq. lia.
  - intros _ h'. apply IH. cbn [length] in Hlen. lia.
Qed.

Lemma parse_text_loop callback s h :
  parse_text callback s h = loop callback (incomplete s) (split "#" s) h.
Proof.
  unfold parse_text. destruct (has_indexOf s "#") eqn:Hs.
  - by apply for_each_loop.
  - rewrite (split_no_delimiter s Hs). cbn [loop]. rewrite bind_ret_r.
    destruct (String.eqb_spec s "") as [->|Hne].
    + rewrite step_empty. unfold modify. by rewrite <- (appended_nil h) at 2.
    + rewrite open_tail_incomplete by (by rewrite split_no_delimiter).
      by rewrite step_tail.
Qed.

Lemma parseSocketData_text callback data :
  parseSocketData callback data = parse_text callback (toString data).
Proof. reflexivity. Qed.

Lemma glue_not_nil l first rest : glue l first rest <> [].
Proof. destruct l as [|x [|y l]]; done. Qed.

Lemma loop_ext callback inc inc' l h :
  (l <> [] -> inc = inc') -> loop callback inc l h = loop callback inc' l h.
Proof.
  intros Hinc. destruct l as [|x l]; [done|]. by rewrite Hinc.
Qed.

Lemma bind_ext2 {A B} (m m' : M A) (k k' : A -> M B) h h' :
  m h = m' h' -> (forall a h'', k a h'' = k' a h'') ->
  bind m k h = bind m' k' h'.
Proof.
  intros Hm Hk. rewrite !bind_run, Hm.
  destruct (m' h') as [[t1 h1] [a|e]]; [|done]. by rewrite Hk.
Qed.

Lemma bind_moved {B} (m : M unit) (k : unit -> M B) h h1 :
  m h = ([], h1, Normal tt) -> bind m k h = k tt h1.
Proof.
  intros Hm. rewrite bind_run, Hm. by destruct (k tt h1) as [[t2 h2] c].
Qed.

Lemma loop_glue_last callback incA incB incAB first rest x h :
  (x <> "" -> incA = true) ->
  ~ (x <> "" /\ first = "" /\ rest <> []) ->
  (rest <> [] -> incAB = incB) ->
  (rest = [] -> first <> "" -> incAB = true /\ incB = true) ->
  (rest = [] -> first = "" -> incAB = incA) ->
  loop callback incAB ((x +:+ first) :: rest) h
  = bind (step callback incA x)
      (fun _ => loop callback incB (first :: rest)) h.
Proof.
  intros HA Hbad Hrest Hfirst Hempty.
  destruct (String.eqb_spec x "") as [->|Hx].
  - rewrite (bind_moved _ _ h h) by apply step_empty.
    rewrite string_app_nil_l. cbn [loop]. apply bind_ext.
    + destruct rest as [|z rest].
      * destruct (String.eqb_spec first "") as [->|Hf].
        -- by rewrite !step_empty.
        -- by destruct (Hfirst eq_refl Hf) as [-> ->].
      * done.
    + intros _ h'. apply loop_ext. intros Hr. by apply Hrest.
  - rewrite (HA Hx).
    rewrite (bind_moved _ _ h (appended x h)) by (by apply step_tail).
    cbn [loop].
    destruct (String.eqb_spec first "") as [->|Hf].
    + destruct rest as [|z rest]; [|by destruct Hbad].
      rewrite string_app_nil_r, (Hempty eq_refl eq_refl), (HA Hx).
      rewrite !bind_ret_r, step_empty, andb_true_l. by apply step_tail.
    + apply bind_ext2.
      * rewrite step_appended by done.
        destruct rest as [|z rest]; [|done].
        by destruct (Hfirst eq_refl Hf) as [-> ->].
      * intros _ h'. apply loop_ext. intros Hr. by apply Hrest.
Qed.

Lemma loop_cons callback inc x l :
  loop callback inc (x :: l)
  = bind (step callback (match l with [] => true | _ => false end && inc) x)
      (fun _ => loop callback inc l).
Proof. reflexivity. Qed.

Lemma loop_glue callback incA incB incAB first rest l :
  l <> [] ->
  (List.last l "" <> "" -> incA = true) ->
  ~ (List.last l "" <> "" /\ first = "" /\ rest <> []) ->
  (rest <> [] -> incAB = incB) ->
  (rest = [] -> first <> "" -> incAB = true /\ incB = true) ->
  (rest = [] -> first = "" -> incAB = incA) ->
  forall h,
    loop callback incAB (glue l first rest) h
    = bind (loop callback incA l)
        (fun _ => loop callback incB (first :: rest)) h.
Proof.
  intros Hnil HA Hbad Hrest Hfirst Hempty.
  induction l as [|x l IH]; [done|]. intros h.
  destruct l as [|y l].
  - clear IH. cbn [glue List.last] in *.
    rewrite (loop_glue_last callback incA incB) by assumption.
    apply bind_ext; [|done]. cbn [loop]. by rewrite bind_ret_r.
  - remember (y :: l) as l' eqn:Hl'.
    assert (l' <> []) as Hl'nil by (by subst l').
    assert (List.last (x :: l') "" = List.last l' "") as Hlast
      by (by subst l').
    rewrite Hlast in *. specialize (IH Hl'nil HA Hbad).
    assert (glue (x :: l') first rest = x :: glue l' first rest) as ->
      by (by subst l').
    rewrite (loop_cons callback incAB x), (loop_cons callback incA x).
    rewrite bind_assoc.
    assert (match glue l' first rest with [] => true | _ => false end = false)
      as ->.
    { destruct (glue l' first rest) eqn:Hglue; [|done].
      by destruct (glue_not_nil l' first rest). }
    assert (match l' with [] => true | _ => false end = false) as ->
      by (by subst l').
    apply bind_ext; [done|]. intros _ h'. apply IH.
Qed.

Lemma parse_text_app callback a b h :
  ends_inside_frame a && starts_with_delimiter b = false ->
  bind (parse_text callback a) (fun _ => parse_text callback b) h
  = parse_text callback (a +:+ b) h.
Proof.
  intros Hsplit. rewrite parse_text_loop, split_app.
  rewrite (bind_ext _ (loop callback (incomplete a) (split "#" a)) _
             (fun _ => loop callback (incomplete b) (split "#" b)))
    by (intros; apply parse_text_loop).
  destruct (split "#" b) as [|first rest] eqn:Hb;
    [by destruct (split_not_nil _ _ Hb)|].
  cbn [hd tl]. symmetry. apply loop_glue.
  - apply split_not_nil.
  - apply open_tail_incomplete.
  - intros (Hlast & Hf & Hr).
    apply last_ends_inside_frame in Hlast.
    assert (starts_with_delimiter b = true) as Hstart.
    { apply starts_with_delimiter_split. by rewrite Hb. }
    by rewrite Hlast, Hstart in Hsplit.
  - intros Hr. apply incomplete_app. intros ->. by injection Hb as _ <-.
  - intros -> Hf. destruct (split_singleton _ _ Hb) as [-> _].
    rewrite incomplete_app by done.
    assert (incomplete b = true) as ->; [|done].
    apply open_tail_incomplete. by rewrite Hb.
  - intros -> ->. destruct (split_singleton _ _ Hb) as [<- _].
    by rewrite string_app_nil_r.
Qed.

End Loop.

Section Chunks.

Context `{Environment}.

Lemma string_length_app (a b : string) :
  String.length (a +:+ b) = String.length a + String.length b.
Proof.
  induction a as [|c a IH]; [done|]. rewrite string_app_cons. cbn. by rewrite IH.
Qed.

Lemma string_app_self (a b : string) : b = a +:+ b -> a = "".
Proof.
  intros Hb. apply (f_equal String.length) in Hb.
  rewrite string_length_app in Hb. destruct a; [done|]. cbn in Hb. lia.
Qed.

Lemma run_chunks_from callback chunks : forall before h,
  (forall pre chunk post,
     chunks = pre ++ chunk :: post ->
     toString (before ++ concat pre ++ chunk)
     = toString (before ++ concat pre) +:+ toString chunk) ->
  well_split (toString before) chunks = true ->
  bind (parseSocketData callback before)
    (fun _ => run (parseSocketData callback) chunks) h
  = parseSocketData callback (before ++ concat chunks) h.
Proof.
  induction chunks as [|chunk rest IH]; intros before h Hdec Hsplit.
  - cbn [run concat]. by rewrite app_nil_r, bind_ret_r.
  - cbn [run well_split] in *.
    apply andb_true_iff in Hsplit as [Hhere Hrest].
    apply negb_true_iff in Hhere.
    pose proof (Hdec [] chunk rest eq_refl) as Hd. cbn [concat] in Hd.
    rewrite !app_nil_r in Hd. cbn [app] in Hd.
    rewrite <- bind_assoc.
    rewrite (bind_ext _ (parseSocketData callback (before ++ chunk)) _
               (fun _ => run (parseSocketData callback) rest)).
    + cbn [concat]. rewrite app_assoc. apply IH.
      * intros pre c post ->.
        specialize (Hdec (chunk :: pre) c post eq_refl).
        cbn [concat] in Hdec. rewrite <- !app_assoc in Hdec.
        rewrite <- (app_assoc before chunk (concat pre ++ c)).
        by rewrite <- (app_assoc before chunk (concat pre)).
      * by rewrite Hd.
    + rewrite !parseSocketData_text, Hd. by apply parse_text_app.
    + done.
Qed.

End Chunks.

(** X8. Chunk invariance, where the code has it.  When a stream arrives in
    one or more chunks, none of which ends inside a character, and no chunk
    starts with the delimiter of a frame the chunks before it left open,
    feeding the chunks one after the other does exactly what feeding the
    whole stream at once does: the same trace (calls, emitted events,
    printed lines), the same heap, the same outcome. *)
Theorem parseSocketData_chunk_invariance :
  forall (E : Environment) (callback : jsval -> M unit)
         (chunks : list Buffer) (h : Heap),
    chunks <> [] ->
    decodes_piecewise chunks ->
    well_split "" chunks = true ->
    run (parseSocketData callback) chunks h
    = parseSocketData callback (concat chunks) h.
Proof.
  intros E callback chunks h Hne Hdec Hsplit.
  assert (toString [] = "") as Hnil.
  { destruct chunks as [|chunk rest]; [done|].
    specialize (Hdec [] chunk rest eq_refl). cbn in Hdec.
    by apply string_app_self in Hdec. }
  change (concat chunks) with ([] ++ concat chunks).
  rewrite <- (run_chunks_from callback chunks [] h).
  - rewrite parseSocketData_text, Hnil.
    rewrite (bind_moved _ _ h h); [done|].
    unfold parse_text, modify. cbn. by rewrite <- (appended_nil h) at 2.
  - intros pre chunk post ->. cbn [app]. by apply (Hdec pre chunk post).
  - by rewrite Hnil.
Qed.

Lemma toString_app (a b : Buffer) :
  Json.toString (a ++ b) = Json.toString a +:+ Json.toString b.
Proof.
  unfold Json.toString. induction a as [|x a IH]; [done|].
  change (string_of_list_byte ((x :: a) ++ b))
    with (String (ascii_of_byte x) (string_of_list_byte (a ++ b))).
  by rewrite IH.
Qed.

(** Two frames in five chunks, cut inside the frames and after the
    delimiters. *)
Lemma parseSocketData_chunk_invariance_witness :
  run (parseSocketData (H := cluster_node) (cluster_callback 0))
    [Json.bytes "{'op':'a',"; Json.bytes "'data'"; Json.bytes ":1}#{'op'";
     Json.bytes ":'b','data':2}#"; Json.bytes "{'op':'c','data':3}#"]
    (empty_heap (H := cluster_node) tt)
  = parseSocketData (H := cluster_node) (cluster_callback 0)
      (concat
         [Json.bytes "{'op':'a',"; Json.bytes "'data'";
          Json.bytes ":1}#{'op'"; Json.bytes ":'b','data':2}#";
          Json.bytes "{'op':'c','data':3}#"])
      (empty_heap (H := cluster_node) tt).
Proof.
  apply (parseSocketData_chunk_invariance cluster_node (cluster_callback 0)
           [Json.bytes "{'op':'a',"; Json.bytes "'data'";
            Json.bytes ":1}#{'op'"; Json.bytes ":'b','data':2}#";
            Json.bytes "{'op':'c','data':3}#"]
           (empty_heap (H := cluster_node) tt)).
  - discriminate.
  - intros before chunk after _. apply toString_app.
  - vm_compute. reflexivity.
Defined.

Example five_chunks_three_messages :
  emits (trace (run (parseSocketData (H := cluster_node) (cluster_callback 0))
                  [Json.bytes "{'op':'a',"; Json.bytes "'data'";
                   Json.bytes ":1}#{'op'"; Json.bytes ":'b','data':2}#";
                   Json.bytes "{'op':'c','data':3}#"]
                  (empty_heap (H := cluster_node) tt)))
  = [(JStr "a", JNum 1); (JStr "b", JNum 2); (JStr "c", JNum 3)].
Proof. vm_compute. reflexivity. Qed.

Section Frames.

Context `{Environment}.

Lemma split_frame text rest :
  has_indexOf text "#" = false ->
  split "#" (text +:+ "#" +:+ rest) = text :: split "#" rest.
Proof.
  induction text as [|c text IH]; [done|].
  rewrite has_indexOf_cons. intros [Hc Ht]%orb_false_iff.
  rewrite string_app_cons. cbn [split]. by rewrite Hc, (IH Ht).
Qed.

Lemma step_complete callback chunk h :
  chunk <> "" ->
  step callback false chunk h =
  match JSON_parse (pendingSocketData (this h) +:+ chunk) with
  | Throw e =>
      ([parse_failure e (pendingSocketData (this h) +:+ chunk)],
       flushed (appended chunk h), Normal tt)
  | Normal json =>
      if truthy json then
        match callback json (appended chunk h) with
        | (t, h2, Normal _) => (Callback json :: t, flushed h2, Normal tt)
        | (t, h2, Throw e) =>
            (Callback json :: t ++ [callback_failure e json],
             flushed h2, Normal tt)
        end
      else ([], flushed (appended chunk h), Normal tt)
  end.
Proof.
  intros Hne. rewrite step_run. by apply body_result_complete.
Qed.

(** The loop on the segments of a stream of complete frames. *)
Lemma loop_frames callback inc (msgs : list (string * jsval)) : forall h,
  pendingSocketData (this h) = "" ->
  (forall text json, In (text, json) msgs ->
     text <> "" /\ has_indexOf text "#" = false
     /\ JSON_parse text = Normal json /\ truthy json = true) ->
  (forall json h', calls (trace (callback json h')) = []) ->
  let r := loop callback inc (split "#" (frames (msgs.*1))) h in
  calls (trace r) = msgs.*2 /\ outcome r = Normal tt
  /\ pendingSocketData (this (heap r)) = "".
Proof.
  induction msgs as [|[text json] msgs IH]; intros h Hp Hmsgs Hcb.
  - change (split "#" (frames ([].*1))) with [""]. cbn zeta.
    rewrite loop_cons, (bind_moved _ _ h h) by apply step_empty. done.
  - cbn [frames fmap list_fmap fst snd]. cbn zeta.
    destruct (Hmsgs text json ltac:(by left)) as (Hne & Hno & Hparse & Hj).
    rewrite split_frame by done. rewrite loop_cons.
    assert (match split "#" (frames (msgs.*1)) with
            | [] => true | _ => false end = false) as ->.
    { destruct (split "#" (frames (msgs.*1))) eqn:Hs; [|done].
      by destruct (split_not_nil _ _ Hs). }
    rewrite andb_false_l, bind_run, step_complete by done.
    rewrite Hp, string_app_nil_l, Hparse, Hj.
    pose proof (Hcb json (appended text h)) as Hc1.
    destruct (callback json (appended text h)) as [[t h2] c].
    unfold trace in Hc1. cbn [fst snd] in Hc1.
    assert (forall tr h3,
              pendingSocketData (this h3) = "" ->
              calls tr = [json] ->
              let r := (let '(t2, h4, c') :=
                          loop callback inc (split "#" (frames (msgs.*1))) h3
                        in (tr ++ t2, h4, c')) in
              calls (trace r) = json :: msgs.*2 /\ outcome r = Normal tt
              /\ pendingSocketData (this (heap r)) = "") as Hrest.
    { intros tr h3 Hp3 Htr. cbn zeta.
      specialize (IH h3 Hp3 (fun text' json' Hin =>
                               Hmsgs text' json' (or_intror Hin)) Hcb).
      cbn zeta in IH.
      destruct (loop callback inc _ h3) as [[t2 h4] c'].
      unfold trace, heap, outcome in *. cbn [fst snd] in *.
      destruct IH as (IHc & IHo & IHp).
      by rewrite calls_app, Htr, IHc. }
    destruct c as [[]|e].
    + apply Hrest; [done|]. cbn. by rewrite Hc1.
    + apply Hrest; [done|]. cbn. by rewrite calls_app, Hc1.
Qed.

End Frames.

Section FramesOfCluster.

Context `{Environment}.

Lemma cluster_callback_calls socket json h :
  calls (trace (cluster_callback socket json h)) = [].
Proof.
  rewrite cluster_callback_run. unfold cluster_callback_result.
  destruct (get_prop json "op") as [op|e]; [|reflexivity].
  destruct (strict_eq_str op "welcome").
  - destruct (get_prop json "data") as [d|e]; [|reflexivity].
    destruct (get_prop d "markets") as [markets0|e];
      [|by destruct (get_prop d "indexes")].
    destruct (get_prop d "indexes") as [indexes0|e]; [|reflexivity].
    by destruct (join indexes0 ", ").
  - destruct (get_prop json "data") as [d|e]; [|reflexivity].
    by destruct (listeners op d (ext h)).
Qed.

End FramesOfCluster.

(** X9. A stream of complete frames gives back its messages.  When the
    chunk is the concatenation of frames, each a text without [#] that is
    not empty and that [JSON.parse] turns into a truthy value, followed by
    [#], and the buffer is empty, [parseSocketData] calls the callback with
    exactly these values, once each and in the order of the frames, throws
    nothing and leaves the buffer empty, whatever the callback does. *)
Theorem parseSocketData_decodes_frames :
  forall (E : Environment) (callback : jsval -> M unit)
         (msgs : list (string * jsval)) (data : Buffer) (h : Heap),
    toString data = frames (msgs.*1) ->
    pendingSocketData (this h) = "" ->
    (forall text json, In (text, json) msgs ->
       text <> "" /\ has_indexOf text "#" = false
       /\ JSON_parse text = Normal json /\ truthy json = true) ->
    (forall json h', calls (trace (callback json h')) = []) ->
    let r := parseSocketData callback data h in
    calls (trace r) = msgs.*2 /\ outcome r = Normal tt
    /\ pendingSocketData (this (heap r)) = "".
Proof.
  intros E callback msgs data h Hdata Hp Hmsgs Hcb.
  rewrite parseSocketData_text, Hdata. cbn zeta.
  rewrite parse_text_loop. by apply loop_frames.
Qed.

(** Two frames in one chunk, as in the example of the specification. *)
Lemma parseSocketData_decodes_frames_witness :
  let r := parseSocketData (H := cluster_node) (cluster_callback 0)
             (Json.bytes "{'op':'a','data':1}#{'op':'b','data':2}#")
             (empty_heap (H := cluster_node) tt) in
  calls (trace r)
  = [(Json.requote "{'op':'a','data':1}",
      JObj [("op", JStr "a"); ("data", JNum 1)]);
     (Json.requote "{'op':'b','data':2}",
      JObj [("op", JStr "b"); ("data", JNum 2)])].*2
  /\ outcome r = Normal tt
  /\ pendingSocketData (this (heap r)) = "".
Proof.
  apply (parseSocketData_decodes_frames cluster_node (cluster_callback 0)
           [(Json.requote "{'op':'a','data':1}",
             JObj [("op", JStr "a"); ("data", JNum 1)]);
            (Json.requote "{'op':'b','data':2}",
             JObj [("op", JStr "b"); ("data", JNum 2)])]).
  - reflexivity.
  - reflexivity.
  - intros text json [[= <- <-]|[[= <- <-]|[]]];
      (split; [discriminate|]); repeat split; reflexivity.
  - intros json h'. apply cluster_callback_calls.
Defined.

(** X10. The handshake, end to end.  When the chunk a cluster node
    receives on a connection with an empty buffer is the text the collector
    wrote on its ['connect'] event, and this text, without its final [#],
    has no [#], is not empty and is parsed by the cluster's [JSON.parse]
    back into the collector's handshake message, then the cluster node
    registers the socket with the markets and the indexes of the
    collector's configuration, emits nothing and leaves the buffer empty. *)
Theorem handshake_registers_configured_markets :
  forall (Ec Eh : Environment) (hc : Heap (H := Ec)) (s socket : SocketId)
         (data : Buffer) (h : Heap (H := Eh)),
    In (SocketWrite s (toString (Environment := Eh) data))
       (trace (collector_on_connect (H := Ec) hc)) ->
    JSON_stringify (Environment := Ec) (welcome (H := Ec)) <> "" ->
    has_indexOf (JSON_stringify (Environment := Ec) (welcome (H := Ec))) "#"
    = false ->
    JSON_parse (Environment := Eh)
      (JSON_stringify (Environment := Ec) (welcome (H := Ec)))
    = Normal (welcome (H := Ec)) ->
    pendingSocketData (this h) = "" ->
    let r := cluster_on_data (H := Eh) socket data h in
    clusteredCollectors (this (heap r)) = clusteredCollectors (this h) ++ [socket]
    /\ markets (socket_of (heap r) socket)
       = JArr (JStr <$> pairs (config (Environment := Ec)))
    /\ indexes (socket_of (heap r) socket)
       = JArr (JStr <$> index_ids (config (Environment := Ec)))
    /\ pendingSocketData (this (heap r)) = ""
    /\ emits (trace r) = []
    /\ outcome r = Normal tt.
Proof.
  intros Ec Eh hc s socket data h Hin Hne Hno Hparse Hp.
  set (text := JSON_stringify (Environment := Ec) (welcome (H := Ec))) in *.
  assert (toString (Environment := Eh) data = text +:+ "#" +:+ "") as Hdata.
  { rewrite string_app_nil_r. revert Hin.
    unfold collector_on_connect, bind, console, tell, gets, throw, trace.
    cbn. destruct (clusterSocket (this hc)); cbn.
    - by intros [[=]|[[= _ <-]|[]]].
    - by intros [[=]|[]]. }
  unfold cluster_on_data. rewrite parseSocketData_text, Hdata. cbn zeta.
  rewrite parse_text_loop, split_frame by done.
  change (split "#" "") with [""].
  rewrite loop_cons, andb_false_l, bind_run, step_complete by done.
  rewrite Hp, string_app_nil_l, Hparse.
  change (truthy welcome) with true. cbv iota.
  rewrite cluster_callback_run.
  change (cluster_callback_result socket welcome (appended text h))
    with ([Console "log"
             [Text "[socket/cluster] registered collector with indexes";
              Joined (JStr <$> index_ids (config (Environment := Ec))) ", "]],
          registered socket
            (JArr (JStr <$> pairs (config (Environment := Ec))))
            (JArr (JStr <$> index_ids (config (Environment := Ec))))
            (appended text h), Normal tt).
  cbv iota beta.
  rewrite loop_cons, (bind_moved _ _ _ _ (step_empty _ _ _)).
  unfold trace, heap, outcome. cbn [fst snd loop ret].
  repeat split.
  - unfold registered, flushed, socket_of; cbn. rewrite lookup_insert_eq. cbn.
    unfold socket_of; cbn. by rewrite lookup_insert_eq.
  - unfold registered, flushed, socket_of; cbn. by rewrite lookup_insert_eq.
Qed.

(** The collector of [collector_config] and a cluster node. *)
Lemma handshake_registers_configured_markets_witness :
  let data :=
    list_byte_of_string
      (JSON_stringify (Environment := collector_node)
         (welcome (H := collector_node)) +:+ "#") in
  let r := cluster_on_data (H := cluster_node) 0 data
             (empty_heap (H := cluster_node) tt) in
  clusteredCollectors (this (heap r))
  = clusteredCollectors (this (empty_heap (H := cluster_node) tt)) ++ [0]
  /\ markets (socket_of (heap r) 0)
     = JArr (JStr <$> pairs (config (Environment := collector_node)))
  /\ indexes (socket_of (heap r) 0)
     = JArr (JStr <$> index_ids (config (Environment := collector_node)))
  /\ pendingSocketData (this (heap r)) = ""
  /\ emits (trace r) = []
  /\ outcome r = Normal tt.
Proof.
  apply (handshake_registers_configured_markets collector_node cluster_node
           (heap (constructor (H := collector_node)
                    (empty_heap (H := collector_node) tt))) 0 0
           (list_byte_of_string
              (JSON_stringify (Environment := collector_node)
                 (welcome (H := collector_node)) +:+ "#"))
           (empty_heap (H := cluster_node) tt)).
  - right. left. reflexivity.
  - discriminate.
  - reflexivity.
  - reflexivity.
  - reflexivity.
Defined.

(** ** The registry at its edges *)

Section RegistryEdges.

Context `{Environment}.


End RegistryEdges.

(** X11. The end handler takes exactly one record of its socket out of the
    registry, the first, and leaves every other record: a socket that has
    registered twice is still in the registry after its connection has
    ended, and the end of a socket that is not registered changes
    nothing. *)
Theorem cluster_on_end_removes_one_record :
  forall (E : Environment) (socket other : SocketId) (h : Heap),
    count_occ Nat.eq_dec
      (clusteredCollectors (this (heap (cluster_on_end socket h)))) other
    = if decide (other = socket)
      then pred (count_occ Nat.eq_dec (clusteredCollectors (this h)) socket)
      else count_occ Nat.eq_dec (clusteredCollectors (this h)) other.
Proof.
  intros E socket other h. rewrite cluster_on_end_run. cbn.
  apply count_occ_without_first.
Qed.

Example registered_twice_ended_once :
  let r := run (H := cluster_node) cluster_handle
             [Connection;
              SocketData 0 (Json.bytes
                "{'op':'welcome','data':{'markets':['BITMEX:XBTUSD'],'indexes':['BTCUSD']}}#");
              SocketData 0 (Json.bytes
                "{'op':'welcome','data':{'markets':['BITMEX:XBTUSD'],'indexes':['BTCUSD']}}#");
              SocketEnd 0]
             (empty_heap (H := cluster_node) tt) in
  clusteredCollectors (this (heap r)) = [0]
  /\ destroyed (socket_of (heap r) 0) = true
  /\ outcome (getNodeByMarket "BTCUSD" (heap r)) = Normal (Some 0).
Proof. cbv zeta. repeat split; vm_compute; reflexivity. Qed.


